(** * DynamicCharAtlas: an LRU glyph cache over a fixed-size texture atlas.

    Shallow embedding of [DynamicCharAtlas.ts] (xterm.js renderer).  JS strings
    are sequences of UTF-16 code units, numbers used as indices and colour ids
    are integers, the [Map] used as an LRU is an association list kept in
    insertion order, and canvases are records carrying their drawing state,
    their save/restore stack and their pixels.  The browser's rasterisation
    primitives ([fillRect], [fillText], [drawImage]) and number formatting are
    left abstract in a record [Browser]: every result holds for all of them. *)

From Stdlib Require Import Strings.String Strings.Ascii.
From Stdlib Require Import ZArith List Bool Lia QArith.
From Stdlib Require Import DecimalZ FunctionalExtensionality Permutation.
Import ListNotations.
Open Scope Z_scope.

(** ** JS strings *)

(** A JS string: its UTF-16 code units. *)
Definition jsstring := list Z.

(** A string literal of the source, as code units. *)
Definition js (s : String.string) : jsstring :=
  map (fun a => Z.of_nat (Ascii.nat_of_ascii a)) (String.list_ascii_of_string s).

Definition jsstring_eqb (a b : jsstring) : bool :=
  if list_eq_dec Z.eq_dec a b then true else false.

(** The digits of a decimal numeral, as code units ['0'] = 48 .. ['9'] = 57. *)
Fixpoint uint_to_js (d : Decimal.uint) : jsstring :=
  match d with
  | Decimal.Nil => []
  | Decimal.D0 d => 48 :: uint_to_js d
  | Decimal.D1 d => 49 :: uint_to_js d
  | Decimal.D2 d => 50 :: uint_to_js d
  | Decimal.D3 d => 51 :: uint_to_js d
  | Decimal.D4 d => 52 :: uint_to_js d
  | Decimal.D5 d => 53 :: uint_to_js d
  | Decimal.D6 d => 54 :: uint_to_js d
  | Decimal.D7 d => 55 :: uint_to_js d
  | Decimal.D8 d => 56 :: uint_to_js d
  | Decimal.D9 d => 57 :: uint_to_js d
  end.

(** Template interpolation [`${n}`] of an integer-valued number: its decimal
    numeral, with ['-'] (45) in front of a negative one. *)
Definition number_to_js (n : Z) : jsstring :=
  match Z.to_int n with
  | Decimal.Pos d => uint_to_js d
  | Decimal.Neg d => 45 :: uint_to_js d
  end.

(** [s.charCodeAt(0)]: [None] stands for [NaN] on the empty string. *)
Definition charCodeAt0 (s : jsstring) : option Z :=
  match s with
  | [] => None
  | u :: _ => Some u
  end.

(** ** Data model *)

(** [IColor]: a CSS string and the packed 0xRRGGBBAA value. *)
Record IColor := { css : jsstring; rgba : Z }.

(** [IGlyphIdentifier] (./Types). *)
Record IGlyphIdentifier := {
  char : jsstring;
  bg : Z;
  fg : Z;
  bold : bool;
  dim : bool
}.

Record IColorSet := {
  background : IColor;
  foreground : IColor;
  ansi : list IColor
}.

(** [ICharAtlasConfig], the fields the atlas reads. *)
Record ICharAtlasConfig := {
  scaledCharWidth : Z;
  scaledCharHeight : Z;
  fontFamily : jsstring;
  fontSize : Q;
  devicePixelRatio : Q;
  colors : IColorSet
}.

(** One RGBA pixel of an [ImageData] or a canvas. *)
Record pixel := { pr : Z; pg : Z; pb : Z; pa : Z }.

Definition transparent : pixel := {| pr := 0; pg := 0; pb := 0; pa := 0 |}.

(** A pixel surface, addressed by (x, y). *)
Definition surface := Z -> Z -> pixel.

(** The drawing state a [CanvasRenderingContext2D] saves and restores. *)
Record ctx_state := {
  fillStyle : jsstring;
  font : jsstring;
  textBaseline : jsstring;
  globalAlpha : Q
}.

(** A canvas element with its 2d context. *)
Record canvas := {
  cv_width : Z;
  cv_height : Z;
  cv_state : ctx_state;
  cv_stack : list ctx_state;
  cv_pixels : surface
}.

Record ImageData := {
  id_width : Z;
  id_height : Z;
  id_data : surface
}.

(** The browser's rasterisation and number formatting, left abstract:
    [paint_rect] is [fillRect], [paint_text] is [fillText], [paint_image] is
    [drawImage] of a source region already cropped to its width and height,
    and [q_to_js] is the interpolation of a (non-integer) number. *)
Record Browser := {
  paint_rect : ctx_state -> Z -> Z -> Z -> Z -> surface -> surface;
  paint_text : ctx_state -> jsstring -> Z -> Z -> surface -> surface;
  paint_image : ctx_state -> surface -> Z -> Z -> Z -> Z -> surface -> surface;
  q_to_js : Q -> jsstring
}.

(** A thrown [TypeError] (reading a property of [undefined]) or a value. *)
Inductive js_result (A : Type) : Type :=
| Ok (a : A)
| TypeError.
Arguments Ok {A} a.
Arguments TypeError {A}.

Definition bind {A B} (r : js_result A) (f : A -> js_result B) : js_result B :=
  match r with
  | Ok a => f a
  | TypeError => TypeError
  end.

(** ** Constants of ./Types (outside this source tree) *)

(** Modelled from the spec: [INVERTED_DEFAULT_COLOR] of ./Types, the reserved
    colour id that selects the inverted default colours; the spec only asks it
    to lie outside the palette range 0..255. *)
Definition INVERTED_DEFAULT_COLOR : Z := -1.

(** Modelled from the spec: [DIM_OPACITY] of ./Types, the fixed opacity
    multiplier for dim glyphs (the spec's example: 0.5). *)
Definition DIM_OPACITY : Q := 1 # 2.

(** ** Glyph cache key and the [Map] used as an LRU *)

Definition GlyphCacheKey := jsstring.

(** [getGlyphCacheKey]:
    [`${glyph.bg}_${glyph.fg}_${glyph.bold ? 0 : 1}${glyph.dim ? 0 : 1}${glyph.char}`];
    ['_'] is 95, ['0'] is 48 and ['1'] is 49. *)
Definition getGlyphCacheKey (glyph : IGlyphIdentifier) : GlyphCacheKey :=
  number_to_js (bg glyph) ++ [95] ++ number_to_js (fg glyph) ++ [95] ++
  [if bold glyph then 48 else 49] ++ [if dim glyph then 48 else 49] ++ char glyph.

(** A JS [Map<GlyphCacheKey, number>]: its entries in insertion order. *)
Definition jsmap := list (GlyphCacheKey * Z).

(** [map.get(k)]; [None] is [undefined]. *)
Fixpoint map_get (k : GlyphCacheKey) (m : jsmap) : option Z :=
  match m with
  | [] => None
  | (k', v) :: r => if jsstring_eqb k k' then Some v else map_get k r
  end.

(** [map.delete(k)]. *)
Fixpoint map_delete (k : GlyphCacheKey) (m : jsmap) : jsmap :=
  match m with
  | [] => []
  | (k', v) :: r => if jsstring_eqb k k' then r else (k', v) :: map_delete k r
  end.

(** [map.set(k, v)]: an existing key keeps its place, a new one goes last. *)
Fixpoint map_set (k : GlyphCacheKey) (v : Z) (m : jsmap) : jsmap :=
  match m with
  | [] => [(k, v)]
  | (k', v') :: r => if jsstring_eqb k k' then (k, v) :: r else (k', v') :: map_set k v r
  end.

(** [map.size]. *)
Definition map_size (m : jsmap) : Z := Z.of_nat (length m).

(** [mapShift]: removes and returns the oldest entry; [None] is [undefined]. *)
Definition mapShift (m : jsmap) : option ((GlyphCacheKey * Z) * jsmap) :=
  match m with
  | [] => None
  | entry :: r => Some (entry, r)
  end.

(** ** Canvas operations *)

Definition set_fillStyle (c : canvas) (v : jsstring) : canvas :=
  {| cv_width := cv_width c; cv_height := cv_height c;
     cv_state := {| fillStyle := v; font := font (cv_state c);
                    textBaseline := textBaseline (cv_state c);
                    globalAlpha := globalAlpha (cv_state c) |};
     cv_stack := cv_stack c; cv_pixels := cv_pixels c |}.

Definition set_font (c : canvas) (v : jsstring) : canvas :=
  {| cv_width := cv_width c; cv_height := cv_height c;
     cv_state := {| fillStyle := fillStyle (cv_state c); font := v;
                    textBaseline := textBaseline (cv_state c);
                    globalAlpha := globalAlpha (cv_state c) |};
     cv_stack := cv_stack c; cv_pixels := cv_pixels c |}.

Definition set_textBaseline (c : canvas) (v : jsstring) : canvas :=
  {| cv_width := cv_width c; cv_height := cv_height c;
     cv_state := {| fillStyle := fillStyle (cv_state c); font := font (cv_state c);
                    textBaseline := v; globalAlpha := globalAlpha (cv_state c) |};
     cv_stack := cv_stack c; cv_pixels := cv_pixels c |}.

Definition set_globalAlpha (c : canvas) (v : Q) : canvas :=
  {| cv_width := cv_width c; cv_height := cv_height c;
     cv_state := {| fillStyle := fillStyle (cv_state c); font := font (cv_state c);
                    textBaseline := textBaseline (cv_state c); globalAlpha := v |};
     cv_stack := cv_stack c; cv_pixels := cv_pixels c |}.

Definition set_pixels (c : canvas) (p : surface) : canvas :=
  {| cv_width := cv_width c; cv_height := cv_height c; cv_state := cv_state c;
     cv_stack := cv_stack c; cv_pixels := p |}.

(** [ctx.save()]. *)
Definition ctx_save (c : canvas) : canvas :=
  {| cv_width := cv_width c; cv_height := cv_height c; cv_state := cv_state c;
     cv_stack := cv_state c :: cv_stack c; cv_pixels := cv_pixels c |}.

(** [ctx.restore()]: does nothing on an empty stack. *)
Definition ctx_restore (c : canvas) : canvas :=
  match cv_stack c with
  | [] => c
  | s :: st =>
      {| cv_width := cv_width c; cv_height := cv_height c; cv_state := s;
         cv_stack := st; cv_pixels := cv_pixels c |}
  end.

Definition in_rect (x y w h px py : Z) : bool :=
  (x <=? px) && (px <? x + w) && (y <=? py) && (py <? y + h).

(** [ctx.getImageData(x, y, w, h)]. *)
Definition getImageData (c : canvas) (x y w h : Z) : ImageData :=
  {| id_width := w; id_height := h;
     id_data := fun i j => if in_rect 0 0 (cv_width c) (cv_height c) (x + i) (y + j)
                           then cv_pixels c (x + i) (y + j) else transparent |}.

(** [ctx.putImageData(img, x, y)]: overwrites the [img]-sized rectangle at
    (x, y), clipped to the canvas, with no blending. *)
Definition putImageData (c : canvas) (img : ImageData) (x y : Z) : canvas :=
  set_pixels c (fun px py =>
    if in_rect x y (id_width img) (id_height img) px py
       && in_rect 0 0 (cv_width c) (cv_height c) px py
    then id_data img (px - x) (py - y)
    else cv_pixels c px py).

(** The (sw x sh) region of a canvas at (sx, sy), as [drawImage] reads it. *)
Definition crop (c : canvas) (sx sy sw sh : Z) : surface :=
  fun i j => if in_rect 0 0 sw sh i j then cv_pixels c (sx + i) (sy + j) else transparent.

(** A fresh canvas of the given size with the default 2d-context state. *)
Definition default_ctx_state : ctx_state :=
  {| fillStyle := js "#000000"; font := js "10px sans-serif";
     textBaseline := js "alphabetic"; globalAlpha := 1 |}.

Definition new_canvas (w h : Z) : canvas :=
  {| cv_width := w; cv_height := h; cv_state := default_ctx_state; cv_stack := [];
     cv_pixels := fun _ _ => transparent |}.

(** Modelled from the spec: [clearColor] of shared/atlas/CharAtlasGenerator
    (not in this source tree): every pixel exactly matching the fill colour
    (all four channels of its packed 0xRRGGBBAA value) becomes fully
    transparent, every other pixel is left as it is. *)
Definition color_r (c : IColor) : Z := Z.land (Z.shiftr (rgba c) 24) 255.
Definition color_g (c : IColor) : Z := Z.land (Z.shiftr (rgba c) 16) 255.
Definition color_b (c : IColor) : Z := Z.land (Z.shiftr (rgba c) 8) 255.
Definition color_a (c : IColor) : Z := Z.land (rgba c) 255.

Definition matches_color (p : pixel) (c : IColor) : bool :=
  (pr p =? color_r c) && (pg p =? color_g c) && (pb p =? color_b c) && (pa p =? color_a c).

Definition clearColor (img : ImageData) (c : IColor) : ImageData :=
  {| id_width := id_width img; id_height := id_height img;
     id_data := fun i j =>
       let p := id_data img i j in
       if matches_color p c then {| pr := pr p; pg := pg p; pb := pb p; pa := 0 |} else p |}.

(** ** The atlas *)

Definition TEXTURE_WIDTH : Z := 1024.
Definition TEXTURE_HEIGHT : Z := 1024.

Record DynamicCharAtlas := {
  _config : ICharAtlasConfig;
  _cacheMap : jsmap;
  _cacheCanvas : canvas;
  _tmpCanvas : canvas;
  _capacity : Z;
  _width : Z;
  _height : Z
}.

Definition with_cacheMap (a : DynamicCharAtlas) (m : jsmap) : DynamicCharAtlas :=
  {| _config := _config a; _cacheMap := m; _cacheCanvas := _cacheCanvas a;
     _tmpCanvas := _tmpCanvas a; _capacity := _capacity a; _width := _width a;
     _height := _height a |}.

Definition with_canvases (a : DynamicCharAtlas) (cache tmp : canvas) : DynamicCharAtlas :=
  {| _config := _config a; _cacheMap := _cacheMap a; _cacheCanvas := cache;
     _tmpCanvas := tmp; _capacity := _capacity a; _width := _width a;
     _height := _height a |}.

(** [new DynamicCharAtlas(document, config)]; [Math.floor] of a quotient of
    positive integers is [Z.div]. *)
Definition construct (config : ICharAtlasConfig) : DynamicCharAtlas :=
  let w := TEXTURE_WIDTH / scaledCharWidth config in
  let h := TEXTURE_HEIGHT / scaledCharHeight config in
  {| _config := config;
     _cacheMap := [];
     _cacheCanvas := new_canvas TEXTURE_WIDTH TEXTURE_HEIGHT;
     _tmpCanvas := new_canvas (scaledCharWidth config) (scaledCharHeight config);
     _capacity := w * h;
     _width := w;
     _height := h |}.

(** [_canCache]: [glyph.char.charCodeAt(0) < 256]; [NaN < 256] is false. *)
Definition _canCache (glyph : IGlyphIdentifier) : bool :=
  match charCodeAt0 (char glyph) with
  | Some u => u <? 256
  | None => false
  end.

(** [_toCoordinates]: JS [%] is the truncated remainder [Z.rem]. *)
Definition _toCoordinates (a : DynamicCharAtlas) (index : Z) : Z * Z :=
  (Z.rem index (_width a) * scaledCharWidth (_config a),
   (index / _width a) * scaledCharHeight (_config a)).

(** [colors.ansi[i]]; [undefined] ([None]) off the array. *)
Definition ansi_at (cs : IColorSet) (i : Z) : option IColor :=
  if i <? 0 then None else nth_error (ansi cs) (Z.to_nat i).

(** Reading [.css] of a possibly [undefined] colour. *)
Definition defined (c : option IColor) : js_result IColor :=
  match c with
  | Some c => Ok c
  | None => TypeError
  end.

Section Atlas.
Context (B : Browser).

(** [ctx.fillRect(x, y, w, h)] and [ctx.fillText(s, x, y)]. *)
Definition fillRect (c : canvas) (x y w h : Z) : canvas :=
  set_pixels c (paint_rect B (cv_state c) x y w h (cv_pixels c)).

Definition fillText (c : canvas) (s : jsstring) (x y : Z) : canvas :=
  set_pixels c (paint_text B (cv_state c) s x y (cv_pixels c)).

(** [ctx.drawImage(src, sx, sy, sw, sh, dx, dy, dw, dh)]. *)
Definition drawImage (c src : canvas) (sx sy sw sh dx dy dw dh : Z) : canvas :=
  set_pixels c (paint_image B (cv_state c) (crop src sx sy sw sh) dx dy dw dh (cv_pixels c)).

(** [_drawFromCache]. *)
Definition _drawFromCache (a : DynamicCharAtlas) (ctx : canvas) (index x y : Z) : canvas :=
  let '(cacheX, cacheY) := _toCoordinates a index in
  let cfg := _config a in
  drawImage ctx (_cacheCanvas a) cacheX cacheY (scaledCharWidth cfg) (scaledCharHeight cfg)
    x y (scaledCharWidth cfg) (scaledCharHeight cfg).

(** [_drawToCache], with the object's state after the call whether it
    returns or throws.  [this._tmpCtx.save()] runs first; reading [.css] of
    an [undefined] palette entry then throws, for the background before any
    other drawing and for the foreground after the background fill and the
    font and baseline were set: the scratch canvas keeps what was done to it
    up to the throw, and [restore()] is never reached. *)
Definition _drawToCache_st (a : DynamicCharAtlas) (glyph : IGlyphIdentifier) (index : Z)
  : js_result unit * DynamicCharAtlas :=
  let cfg := _config a in
  let t0 := ctx_save (_tmpCanvas a) in
  (* draw the background *)
  match (if bg glyph =? INVERTED_DEFAULT_COLOR then Ok (foreground (colors cfg))
         else if bg glyph <? 256 then defined (ansi_at (colors cfg) (bg glyph))
         else Ok (background (colors cfg))) with
  | TypeError => (TypeError, with_canvases a (_cacheCanvas a) t0)
  | Ok backgroundColor =>
  let t1 := set_fillStyle t0 (css backgroundColor) in
  let t2 := fillRect t1 0 0 (scaledCharWidth cfg) (scaledCharHeight cfg) in
  (* draw the foreground/glyph *)
  let t3 := set_font t2 (q_to_js B (fontSize cfg * devicePixelRatio cfg)
                         ++ js "px " ++ fontFamily cfg) in
  let t4 := if bold glyph then set_font t3 (js "bold " ++ font (cv_state t3)) else t3 in
  let t5 := set_textBaseline t4 (js "top") in
  match (if fg glyph =? INVERTED_DEFAULT_COLOR then Ok (background (colors cfg))
         else if fg glyph <? 256 then defined (ansi_at (colors cfg) (fg glyph))
         else Ok (foreground (colors cfg))) with
  | TypeError => (TypeError, with_canvases a (_cacheCanvas a) t5)
  | Ok fgColor =>
  let t6 := set_fillStyle t5 (css fgColor) in
  let t7 := if dim glyph then set_globalAlpha t6 DIM_OPACITY else t6 in
  let t8 := fillText t7 (char glyph) 0 0 in
  let t9 := ctx_restore t8 in
  let imageData := getImageData t9 0 0 (scaledCharWidth cfg) (scaledCharHeight cfg) in
  let imageData' := clearColor imageData backgroundColor in
  let '(x, y) := _toCoordinates a index in
  (Ok tt, with_canvases a (putImageData (_cacheCanvas a) imageData' x y) t9)
  end
  end.

(** A call of [_drawToCache] as its caller sees it: the object after it
    when it returns, [TypeError] when it throws. *)
Definition _drawToCache (a : DynamicCharAtlas) (glyph : IGlyphIdentifier) (index : Z)
  : js_result DynamicCharAtlas :=
  match _drawToCache_st a glyph index with
  | (Ok _, a') => Ok a'
  | (TypeError, _) => TypeError
  end.

(** [draw(ctx, glyph, x, y)], with the object's state after the call whether
    it returns or throws: the returned boolean with the destination canvas,
    or [TypeError].  [mapShift(...)[1]] on [undefined] throws before any
    change; once [mapShift] has removed the oldest entry, a throw in
    [_drawToCache] leaves the map without it. *)
Definition draw_st (a : DynamicCharAtlas) (ctx : canvas) (glyph : IGlyphIdentifier) (x y : Z)
  : js_result (bool * canvas) * DynamicCharAtlas :=
  let glyphKey := getGlyphCacheKey glyph in
  match map_get glyphKey (_cacheMap a) with
  | Some index =>
      (* move to end of insertion order, so this can behave like an LRU cache *)
      let a' := with_cacheMap a (map_set glyphKey index (map_delete glyphKey (_cacheMap a))) in
      (Ok (true, _drawFromCache a' ctx index x y), a')
  | None =>
      if _canCache glyph then
        match (if map_size (_cacheMap a) <? _capacity a
               then Ok (map_size (_cacheMap a), _cacheMap a)
               else match mapShift (_cacheMap a) with
                    | Some (entry, m) => Ok (snd entry, m)
                    | None => TypeError
                    end) with
        | TypeError => (TypeError, a)
        | Ok (index, m) =>
            match _drawToCache_st (with_cacheMap a m) glyph index with
            | (TypeError, a1) => (TypeError, a1)
            | (Ok _, a1) =>
                let a2 := with_cacheMap a1 (map_set glyphKey index (_cacheMap a1)) in
                (Ok (true, _drawFromCache a2 ctx index x y), a2)
            end
        end
      else (Ok (false, ctx), a)
  end.

(** A call of [draw] as its caller sees it: the returned boolean, the object
    after the call and the destination canvas, or [TypeError]. *)
Definition draw (a : DynamicCharAtlas) (ctx : canvas) (glyph : IGlyphIdentifier) (x y : Z)
  : js_result (bool * DynamicCharAtlas * canvas) :=
  match draw_st a ctx glyph x y with
  | (Ok (b, ctx'), a') => Ok (b, a', ctx')
  | (TypeError, _) => TypeError
  end.

(** A sequence of draw calls that stops at the first throw; the destinations
    are discarded. *)
Fixpoint run (a : DynamicCharAtlas) (calls : list (canvas * IGlyphIdentifier * Z * Z))
  : js_result DynamicCharAtlas :=
  match calls with
  | [] => Ok a
  | (ctx, g, x, y) :: rest =>
      bind (draw a ctx g x y) (fun '(_, a', _) => run a' rest)
  end.

(** The object after a sequence of draw calls whose caller catches every
    throw and goes on. *)
Fixpoint run_st (a : DynamicCharAtlas) (calls : list (canvas * IGlyphIdentifier * Z * Z))
  : DynamicCharAtlas :=
  match calls with
  | [] => a
  | (ctx, g, x, y) :: rest => run_st (snd (draw_st a ctx g x y)) rest
  end.

(** The cache map after a sequence of draw calls. *)
Definition cache_after (a : DynamicCharAtlas) (calls : list (canvas * IGlyphIdentifier * Z * Z))
  : js_result jsmap :=
  bind (run a calls) (fun a' => Ok (_cacheMap a')).

(** Configurations the spec admits: positive cell sizes and a 256-colour palette. *)
Definition valid_config (cfg : ICharAtlasConfig) : Prop :=
  0 < scaledCharWidth cfg /\ 0 < scaledCharHeight cfg /\ length (ansi (colors cfg)) = 256%nat.

(** States the object reaches from a fresh atlas through draw calls, each of
    which returned or threw (the caller catching the exception). *)
Inductive reachable : DynamicCharAtlas -> Prop :=
| reachable_construct cfg : valid_config cfg -> reachable (construct cfg)
| reachable_call a ctx g x y : reachable a -> reachable (snd (draw_st a ctx g x y)).

(** States reached from a fresh atlas through draw calls none of which threw. *)
Inductive reachable_no_throw : DynamicCharAtlas -> Prop :=
| reachable_no_throw_construct cfg : valid_config cfg -> reachable_no_throw (construct cfg)
| reachable_no_throw_draw a ctx g x y b a' ctx' :
    reachable_no_throw a -> draw a ctx g x y = Ok (b, a', ctx') -> reachable_no_throw a'.

End Atlas.

(** ** Concrete instances for tests and witnesses *)

(** A browser whose primitives paint flat colours; [fillText] marks the
    origin of the text with an opaque pixel whose red channel is the text's
    first code unit, so that different characters leave different cells. *)
Definition ink (t : jsstring) : pixel := {| pr := hd 0 t; pg := 255; pb := 255; pa := 255 |}.

Definition B0 : Browser :=
  {| paint_rect := fun _ x y w h s => fun i j => if in_rect x y w h i j then
                     {| pr := 0; pg := 0; pb := 0; pa := 255 |} else s i j;
     paint_text := fun _ t x y s => fun i j => if (i =? x) && (j =? y) then ink t else s i j;
     paint_image := fun _ src x y w h d => fun i j =>
                      if in_rect x y w h i j then src (i - x) (j - y) else d i j;
     q_to_js := fun _ => js "15" |}.

Definition black : IColor := {| css := js "#000000"; rgba := 255 |}.
Definition white : IColor := {| css := js "#ffffff"; rgba := 4294967295 |}.

Definition palette : IColorSet :=
  {| background := black; foreground := white; ansi := repeat black 256 |}.

(** A configuration with cells of the given size. *)
Definition cfg_cells (w h : Z) : ICharAtlasConfig :=
  {| scaledCharWidth := w; scaledCharHeight := h; fontFamily := js "monospace";
     fontSize := 15; devicePixelRatio := 1; colors := palette |}.

(** A glyph with default colours, no attributes, and the given character. *)
Definition glyph_of (s : String.string) : IGlyphIdentifier :=
  {| char := js s; bg := 257; fg := 256; bold := false; dim := false |}.

Definition canvas0 : canvas := new_canvas 100 100.

(** Draws of default-coloured glyphs at the origin of [canvas0]. *)
Definition calls_of (l : list String.string) : list (canvas * IGlyphIdentifier * Z * Z) :=
  map (fun s => (canvas0, glyph_of s, 0, 0)) l.

(** The atlas after a sequence of draw calls ([a] itself if one throws). *)
Definition atlas_after (B : Browser) (a : DynamicCharAtlas)
  (calls : list (canvas * IGlyphIdentifier * Z * Z)) : DynamicCharAtlas :=
  match run B a calls with
  | Ok a' => a'
  | TypeError => a
  end.

(** Four cells of 512 x 512 filled with "A", "B", "C" and "D". *)
Definition full4 : DynamicCharAtlas :=
  atlas_after B0 (construct (cfg_cells 512 512)) (calls_of ["A"; "B"; "C"; "D"]%string).

(** A glyph whose background id is -5: neither the sentinel nor a palette
    index, so reading [colors.ansi[-5].css] throws. *)
Definition bad_bg_glyph (s : String.string) : IGlyphIdentifier :=
  {| char := js s; bg := -5; fg := 256; bold := false; dim := false |}.

(** The destination of a call that returned true. *)
Definition hit_output (r : js_result (bool * canvas) * DynamicCharAtlas) : option canvas :=
  match fst r with
  | Ok (true, c) => Some c
  | _ => None
  end.

(** ** Reference definitions taken from the spec's wording *)

(** The accessed keys in order of their last access, least recent first:
    each key once, at the place of its last access. *)
Fixpoint recency_order (t : list GlyphCacheKey) : list GlyphCacheKey :=
  match t with
  | [] => []
  | k :: r => if in_dec (list_eq_dec Z.eq_dec) k r then recency_order r else k :: recency_order r
  end.

(** The accessed keys in order of their first access. *)
Definition admission_order (t : list GlyphCacheKey) : list GlyphCacheKey :=
  fold_left (fun l k => if in_dec (list_eq_dec Z.eq_dec) k l then l else l ++ [k]) t [].

(** The position of a key in a list. *)
Fixpoint index_of (k : GlyphCacheKey) (l : list GlyphCacheKey) : option Z :=
  match l with
  | [] => None
  | k' :: r => if jsstring_eqb k k' then Some 0 else option_map Z.succ (index_of k r)
  end.

(** The keys of a sequence of draw calls. *)
Definition trace (calls : list (canvas * IGlyphIdentifier * Z * Z)) : list GlyphCacheKey :=
  map (fun '(_, g, _, _) => getGlyphCacheKey g) calls.

(** A colour reference of the spec: the sentinel or a non-negative id. *)
Definition valid_color_ref (z : Z) : Prop := z = INVERTED_DEFAULT_COLOR \/ 0 <= z.

(** A cacheable glyph with valid colour references. *)
Definition drawable (g : IGlyphIdentifier) : Prop :=
  _canCache g = true /\ valid_color_ref (bg g) /\ valid_color_ref (fg g).

(** The spec's three-way rule for the background colour of a glyph: the
    sentinel selects the theme foreground, an id below 256 the palette entry,
    anything else the theme background. *)
Definition effective_bg (cs : IColorSet) (id : Z) : IColor :=
  if id =? INVERTED_DEFAULT_COLOR then foreground cs
  else if id <? 256 then nth (Z.to_nat id) (ansi cs) (background cs)
  else background cs.

(** The symmetric rule for the foreground colour. *)
Definition effective_fg (cs : IColorSet) (id : Z) : IColor :=
  if id =? INVERTED_DEFAULT_COLOR then background cs
  else if id <? 256 then nth (Z.to_nat id) (ansi cs) (foreground cs)
  else foreground cs.

(** The drawing state of the background fill on a scratch context in state
    [st]: the fill colour at full opacity, with the font and the baseline
    that [st] has (a fill does not use them). *)
Definition fill_state (st : ctx_state) (c : IColor) : ctx_state :=
  {| fillStyle := css c; font := font st; textBaseline := textBaseline st; globalAlpha := 1%Q |}.

(** The drawing state of the glyph: the foreground colour, the configured font
    (its bold variant for a bold glyph), the top baseline, and [DIM_OPACITY]
    for a dim glyph. *)
Definition text_state (B : Browser) (cfg : ICharAtlasConfig) (g : IGlyphIdentifier)
  (c : IColor) : ctx_state :=
  {| fillStyle := css c;
     font := (if bold g then js "bold " else []) ++
             q_to_js B (fontSize cfg * devicePixelRatio cfg) ++ js "px " ++ fontFamily cfg;
     textBaseline := js "top";
     globalAlpha := if dim g then DIM_OPACITY else 1%Q |}.

(** A pixel after the background is cleared: transparent when it is exactly
    the fill colour, unchanged otherwise. *)
Definition clear_pixel (p : pixel) (c : IColor) : pixel :=
  if matches_color p c then {| pr := pr p; pg := pg p; pb := pb p; pa := 0 |} else p.

(** The invariant of the states reached without a throw: the
    configuration-derived fields, the map's keys and slots, and the scratch
    canvas's restored context. *)
Record inv (a : DynamicCharAtlas) : Prop := {
  inv_cfg : valid_config (_config a);
  inv_width : _width a = TEXTURE_WIDTH / scaledCharWidth (_config a);
  inv_height : _height a = TEXTURE_HEIGHT / scaledCharHeight (_config a);
  inv_capacity : _capacity a = _width a * _height a;
  inv_keys : NoDup (map fst (_cacheMap a));
  inv_vals : NoDup (map snd (_cacheMap a));
  inv_range : Forall (fun v => 0 <= v < map_size (_cacheMap a)) (map snd (_cacheMap a));
  inv_size : map_size (_cacheMap a) <= _capacity a;
  inv_tmp_state : cv_state (_tmpCanvas a) = default_ctx_state;
  inv_tmp_stack : cv_stack (_tmpCanvas a) = [];
  inv_tmp_dims : cv_width (_tmpCanvas a) = scaledCharWidth (_config a) /\
                 cv_height (_tmpCanvas a) = scaledCharHeight (_config a);
  inv_cache_dims : cv_width (_cacheCanvas a) = TEXTURE_WIDTH /\
                   cv_height (_cacheCanvas a) = TEXTURE_HEIGHT
}.

(** The LRU invariant after a sequence of accesses [t] from a fresh atlas:
    the map's keys are the most recent part of the recency order (all of it
    unless the map is full), and while no more than [capacity] distinct keys
    were accessed, each key's slot is its rank in the admission order. *)
Definition lru_inv (t : list GlyphCacheKey) (a : DynamicCharAtlas) : Prop :=
  inv a /\ 1 <= _capacity a /\
  (exists P, recency_order t = P ++ map fst (_cacheMap a) /\
             (P = [] \/ map_size (_cacheMap a) = _capacity a)) /\
  (Z.of_nat (length (admission_order t)) <= _capacity a ->
   forall k, map_get k (_cacheMap a) = index_of k (admission_order t)).

(** The invariant of every reachable state, also after caught throws: the
    configuration-derived fields, keys without duplicates, slots in
    [0, capacity), at most [capacity] entries, a scratch context at full
    opacity, the atlas context untouched, and both canvases of their size. *)
Record winv (a : DynamicCharAtlas) : Prop := {
  winv_cfg : valid_config (_config a);
  winv_width : _width a = TEXTURE_WIDTH / scaledCharWidth (_config a);
  winv_height : _height a = TEXTURE_HEIGHT / scaledCharHeight (_config a);
  winv_capacity : _capacity a = _width a * _height a;
  winv_keys : NoDup (map fst (_cacheMap a));
  winv_range : Forall (fun v => 0 <= v < _capacity a) (map snd (_cacheMap a));
  winv_size : map_size (_cacheMap a) <= _capacity a;
  winv_alpha : globalAlpha (cv_state (_tmpCanvas a)) = 1%Q;
  winv_cache_state : cv_state (_cacheCanvas a) = default_ctx_state;
  winv_cache_stack : cv_stack (_cacheCanvas a) = [];
  winv_tmp_dims : cv_width (_tmpCanvas a) = scaledCharWidth (_config a) /\
                  cv_height (_tmpCanvas a) = scaledCharHeight (_config a);
  winv_cache_dims : cv_width (_cacheCanvas a) = TEXTURE_WIDTH /\
                    cv_height (_cacheCanvas a) = TEXTURE_HEIGHT
}.

(** A chain of draw calls, each of which returned or threw, after each of
    which the key [k] is still resident: no intervening eviction of [k]. *)
Inductive keeps (B : Browser) (k : GlyphCacheKey) : DynamicCharAtlas -> DynamicCharAtlas -> Prop :=
| keeps_refl a : keeps B k a a
| keeps_step a ctx g x y a2 :
    map_get k (_cacheMap (snd (draw_st B a ctx g x y))) <> None ->
    keeps B k (snd (draw_st B a ctx g x y)) a2 -> keeps B k a a2.

(** The cell of slot [i] of the atlas texture, as [_drawFromCache] reads it. *)
Definition cell_view (a : DynamicCharAtlas) (i : Z) : surface :=
  crop (_cacheCanvas a) (fst (_toCoordinates a i)) (snd (_toCoordinates a i))
    (scaledCharWidth (_config a)) (scaledCharHeight (_config a)).

(** The pixels [_drawToCache] leaves in a glyph's cell when the scratch
    canvas starts out transparent: the glyph drawn over the background fill,
    then every pixel equal to the fill colour cleared; transparent outside
    the cell. *)
Definition glyph_image (B : Browser) (cfg : ICharAtlasConfig) (g : IGlyphIdentifier) : surface :=
  let bgc := effective_bg (colors cfg) (bg g) in
  let fgc := effective_fg (colors cfg) (fg g) in
  fun u v =>
    if in_rect 0 0 (scaledCharWidth cfg) (scaledCharHeight cfg) u v
    then clear_pixel
           (paint_text B (text_state B cfg g fgc) (char g) 0 0
              (paint_rect B (fill_state default_ctx_state bgc) 0 0 (scaledCharWidth cfg)
                 (scaledCharHeight cfg) (fun _ _ => transparent)) u v) bgc
    else transparent.

(** The browser's [fillRect] at the origin overwrites every pixel it covers:
    the source's assumption of "a fully opaque background". *)
Definition rect_covers (B : Browser) : Prop :=
  forall st w h s s' u v, in_rect 0 0 w h u v = true ->
    paint_rect B st 0 0 w h s u v = paint_rect B st 0 0 w h s' u v.

(** The browser's [fillText] composites each pixel from that pixel alone. *)
Definition text_pointwise (B : Browser) : Prop :=
  forall st t x y (s s' : surface) u v, s u v = s' u v ->
    paint_text B st t x y s u v = paint_text B st t x y s' u v.

(** Every entry of the map is the key of a drawable glyph whose rendering
    fills the entry's cell. *)
Definition cache_ok (B : Browser) (a : DynamicCharAtlas) : Prop :=
  forall k i, map_get k (_cacheMap a) = Some i ->
  exists g, k = getGlyphCacheKey g /\ drawable g /\ cell_view a i = glyph_image B (_config a) g.

(** ** Association-list lemmas *)

Section MapLemmas.

Lemma jsstring_eqb_eq a b : jsstring_eqb a b = true <-> a = b.
Proof. unfold jsstring_eqb; destruct (list_eq_dec Z.eq_dec a b); split; congruence. Qed.

Lemma jsstring_eqb_neq a b : jsstring_eqb a b = false <-> a <> b.
Proof. unfold jsstring_eqb; destruct (list_eq_dec Z.eq_dec a b); split; congruence. Qed.

Lemma jsstring_eqb_refl a : jsstring_eqb a a = true.
Proof. apply jsstring_eqb_eq; reflexivity. Qed.

Ltac key_cases k k' :=
  let E := fresh "E" in
  destruct (jsstring_eqb k k') eqn:E;
  [apply jsstring_eqb_eq in E; subst | apply jsstring_eqb_neq in E].

Lemma map_get_none k m : map_get k m = None <-> ~ In k (map fst m).
Proof.
  induction m as [|[k' v] r IH]; simpl; [tauto|].
  key_cases k k'; [split; [discriminate|tauto]|].
  rewrite IH; split; intros H; [intros [->|]; tauto | tauto].
Qed.

Lemma map_get_in k v m : map_get k m = Some v -> In (k, v) m.
Proof.
  induction m as [|[k' v'] r IH]; simpl; [discriminate|].
  key_cases k k'; [intros [= ->]; auto | auto].
Qed.

Lemma in_map_get k v m : NoDup (map fst m) -> In (k, v) m -> map_get k m = Some v.
Proof.
  induction m as [|[k' v'] r IH]; simpl; [tauto|].
  intros Hnd Hin; inversion Hnd as [|? ? Hnot Hnd']; subst.
  key_cases k k'.
  - destruct Hin as [[= ->]|Hin]; [reflexivity|].
    exfalso; apply Hnot; apply (in_map fst) in Hin; exact Hin.
  - destruct Hin as [[= -> ->]|Hin]; [congruence|auto].
Qed.

Lemma map_get_in_keys k v m : map_get k m = Some v -> In k (map fst m).
Proof. intros H; apply map_get_in in H; apply (in_map fst) in H; exact H. Qed.

Lemma map_set_new k v m : ~ In k (map fst m) -> map_set k v m = m ++ [(k, v)].
Proof.
  induction m as [|[k' v'] r IH]; simpl; [reflexivity|].
  intros Hn; key_cases k k'; [tauto|]. rewrite IH by tauto; reflexivity.
Qed.

Lemma map_delete_notin k m : ~ In k (map fst m) -> map_delete k m = m.
Proof.
  induction m as [|[k' v'] r IH]; simpl; [reflexivity|].
  intros Hn; key_cases k k'; [tauto|]. rewrite IH by tauto; reflexivity.
Qed.

Lemma map_delete_keys k m :
  NoDup (map fst m) -> map fst (map_delete k m) = remove (list_eq_dec Z.eq_dec) k (map fst m).
Proof.
  induction m as [|[k' v'] r IH]; simpl; [reflexivity|].
  intros Hnd; inversion Hnd as [|? ? Hnot Hnd']; subst.
  key_cases k k'.
  - destruct (list_eq_dec Z.eq_dec k' k') as [_|]; [|congruence].
    symmetry; apply notin_remove; exact Hnot.
  - destruct (list_eq_dec Z.eq_dec k k') as [|_]; [congruence|].
    simpl; rewrite IH by exact Hnd'; reflexivity.
Qed.

Lemma map_delete_not_in k m : NoDup (map fst m) -> ~ In k (map fst (map_delete k m)).
Proof.
  intros Hnd; rewrite map_delete_keys by exact Hnd; apply remove_In.
Qed.

Lemma map_get_delete_other k k' m : k' <> k -> map_get k' (map_delete k m) = map_get k' m.
Proof.
  intros Hne; induction m as [|[k0 v0] r IH]; simpl; [reflexivity|].
  key_cases k k0; simpl.
  - key_cases k' k0; [congruence|reflexivity].
  - rewrite IH; reflexivity.
Qed.

Lemma map_get_set_same k v m : map_get k (map_set k v m) = Some v.
Proof.
  induction m as [|[k' v'] r IH]; simpl; [rewrite jsstring_eqb_refl; reflexivity|].
  key_cases k k'; simpl; [rewrite jsstring_eqb_refl; reflexivity|].
  apply jsstring_eqb_neq in E; rewrite E; exact IH.
Qed.

Lemma map_get_set_other k k' v m : k' <> k -> map_get k' (map_set k v m) = map_get k' m.
Proof.
  intros Hne; induction m as [|[k0 v0] r IH]; simpl.
  - apply jsstring_eqb_neq in Hne; rewrite Hne; reflexivity.
  - key_cases k k0; simpl.
    + apply jsstring_eqb_neq in Hne; rewrite Hne; reflexivity.
    + rewrite IH; reflexivity.
Qed.

(** The hit path's delete-then-set moves the entry to the end. *)
Lemma map_move_to_end k v m :
  NoDup (map fst m) -> map_get k m = Some v ->
  map_set k v (map_delete k m) = map_delete k m ++ [(k, v)].
Proof.
  intros Hnd _; apply map_set_new, map_delete_not_in, Hnd.
Qed.

Lemma map_delete_perm k v m :
  NoDup (map fst m) -> map_get k m = Some v -> Permutation m (map_delete k m ++ [(k, v)]).
Proof.
  induction m as [|[k' v'] r IH]; simpl; [discriminate|].
  intros Hnd Hget; inversion Hnd as [|? ? Hnot Hnd']; subst.
  key_cases k k'.
  - injection Hget as ->; apply Permutation_cons_append.
  - simpl; constructor; auto.
Qed.

(** Two entries of a map whose values have no duplicate share their key. *)
Lemma nodup_vals_same_key (m : jsmap) a b v :
  NoDup (map snd m) -> In (a, v) m -> In (b, v) m -> a = b.
Proof.
  induction m as [|[k' v'] r IH]; simpl; [tauto|].
  intros Hnd Ha Hb; inversion Hnd as [|? ? Hnot Hnd']; subst.
  destruct Ha as [Ha|Ha]; destruct Hb as [Hb|Hb].
  - congruence.
  - injection Ha as <- <-; exfalso; apply Hnot; apply (in_map snd) in Hb; exact Hb.
  - injection Hb as <- <-; exfalso; apply Hnot; apply (in_map snd) in Ha; exact Ha.
  - auto.
Qed.

Lemma map_get_app k l l' :
  map_get k (l ++ l') = match map_get k l with Some v => Some v | None => map_get k l' end.
Proof.
  induction l as [|[k' v'] r IH]; simpl; [reflexivity|].
  destruct (jsstring_eqb k k'); [reflexivity | exact IH].
Qed.

Lemma nodup_app_l {A} (l l' : list A) : NoDup (l ++ l') -> NoDup l.
Proof.
  induction l as [|a l IH]; simpl; intros H; [constructor|].
  apply NoDup_cons_iff in H; destruct H as [Hn H].
  constructor; [intros Hin; apply Hn, in_or_app; left; exact Hin | auto].
Qed.

End MapLemmas.

(** ** Invariant of the atlas *)

Ltac split_ifs H :=
  repeat match type of H with
         | context [if ?c then _ else _] => let E := fresh "E" in destruct c eqn:E
         | context [match ?o with Some _ => _ | None => _ end] =>
             let E := fresh "E" in destruct o eqn:E
         end.

Section Invariant.
Context (B : Browser).

Ltac split_ifs_goal :=
  repeat match goal with
         | |- context [if ?c then _ else _] => let E := fresh "E" in destruct c eqn:E
         | |- context [match ?o with Some _ => _ | None => _ end] =>
             let E := fresh "E" in destruct o eqn:E
         end.

(** What a call of [_drawToCache] returns, computed directly. *)
Lemma drawToCache_eq a glyph index :
  _drawToCache B a glyph index =
  let cfg := _config a in
  let t0 := ctx_save (_tmpCanvas a) in
  bind (if bg glyph =? INVERTED_DEFAULT_COLOR then Ok (foreground (colors cfg))
        else if bg glyph <? 256 then defined (ansi_at (colors cfg) (bg glyph))
        else Ok (background (colors cfg))) (fun backgroundColor =>
  let t1 := set_fillStyle t0 (css backgroundColor) in
  let t2 := fillRect B t1 0 0 (scaledCharWidth cfg) (scaledCharHeight cfg) in
  let t3 := set_font t2 (q_to_js B (fontSize cfg * devicePixelRatio cfg)
                         ++ js "px " ++ fontFamily cfg) in
  let t4 := if bold glyph then set_font t3 (js "bold " ++ font (cv_state t3)) else t3 in
  let t5 := set_textBaseline t4 (js "top") in
  bind (if fg glyph =? INVERTED_DEFAULT_COLOR then Ok (background (colors cfg))
        else if fg glyph <? 256 then defined (ansi_at (colors cfg) (fg glyph))
        else Ok (foreground (colors cfg))) (fun fgColor =>
  let t6 := set_fillStyle t5 (css fgColor) in
  let t7 := if dim glyph then set_globalAlpha t6 DIM_OPACITY else t6 in
  let t8 := fillText B t7 (char glyph) 0 0 in
  let t9 := ctx_restore t8 in
  let imageData := getImageData t9 0 0 (scaledCharWidth cfg) (scaledCharHeight cfg) in
  let imageData' := clearColor imageData backgroundColor in
  let '(x, y) := _toCoordinates a index in
  Ok (with_canvases a (putImageData (_cacheCanvas a) imageData' x y) t9))).
Proof.
  unfold _drawToCache, _drawToCache_st, defined; cbv zeta.
  split_ifs_goal; cbn [bind]; try reflexivity;
    destruct (_toCoordinates a index); reflexivity.
Qed.

(** What a call of [draw] returns, computed directly. *)
Lemma draw_eq a ctx glyph x y :
  draw B a ctx glyph x y =
  let glyphKey := getGlyphCacheKey glyph in
  match map_get glyphKey (_cacheMap a) with
  | Some index =>
      let a' := with_cacheMap a (map_set glyphKey index (map_delete glyphKey (_cacheMap a))) in
      Ok (true, a', _drawFromCache B a' ctx index x y)
  | None =>
      if _canCache glyph then
        bind (if map_size (_cacheMap a) <? _capacity a
              then Ok (map_size (_cacheMap a), _cacheMap a)
              else match mapShift (_cacheMap a) with
                   | Some (entry, m) => Ok (snd entry, m)
                   | None => TypeError
                   end) (fun '(index, m) =>
        bind (_drawToCache B (with_cacheMap a m) glyph index) (fun a1 =>
        let a2 := with_cacheMap a1 (map_set glyphKey index (_cacheMap a1)) in
        Ok (true, a2, _drawFromCache B a2 ctx index x y)))
      else Ok (false, a, ctx)
  end.
Proof.
  unfold draw, draw_st, _drawToCache; cbv zeta.
  destruct (map_get (getGlyphCacheKey glyph) (_cacheMap a)); [reflexivity|].
  destruct (_canCache glyph); [|reflexivity].
  destruct (map_size (_cacheMap a) <? _capacity a);
    [|destruct (mapShift (_cacheMap a)) as [[[ek ev] m]|]]; cbn [bind snd]; try reflexivity;
    match goal with |- context [_drawToCache_st B ?a0 ?g0 ?i0] =>
      destruct (_drawToCache_st B a0 g0 i0) as [[[]|] a1] end; reflexivity.
Qed.

(** What [_drawToCache] leaves alone. *)
Lemma drawToCache_frame a g i a' :
  _drawToCache B a g i = Ok a' ->
  _config a' = _config a /\ _cacheMap a' = _cacheMap a /\ _capacity a' = _capacity a /\
  _width a' = _width a /\ _height a' = _height a /\
  cv_state (_tmpCanvas a') = cv_state (_tmpCanvas a) /\
  cv_stack (_tmpCanvas a') = cv_stack (_tmpCanvas a) /\
  cv_width (_tmpCanvas a') = cv_width (_tmpCanvas a) /\
  cv_height (_tmpCanvas a') = cv_height (_tmpCanvas a) /\
  cv_width (_cacheCanvas a') = cv_width (_cacheCanvas a) /\
  cv_height (_cacheCanvas a') = cv_height (_cacheCanvas a).
Proof.
  intros H; rewrite drawToCache_eq in H; unfold _toCoordinates, defined in H.
  split_ifs H; simpl in H; try discriminate; injection H as <-;
    simpl; repeat split.
Qed.

(** What [_drawToCache] leaves alone, whether it returns or throws.  A
    return restores the scratch context; a throw leaves the atlas canvas as
    it was and one more entry on the scratch canvas's save stack.  Either
    way the scratch context's [globalAlpha] is the one it had. *)
Lemma drawToCache_st_frame a g i :
  let a' := snd (_drawToCache_st B a g i) in
  _config a' = _config a /\ _cacheMap a' = _cacheMap a /\ _capacity a' = _capacity a /\
  _width a' = _width a /\ _height a' = _height a /\
  cv_width (_tmpCanvas a') = cv_width (_tmpCanvas a) /\
  cv_height (_tmpCanvas a') = cv_height (_tmpCanvas a) /\
  cv_width (_cacheCanvas a') = cv_width (_cacheCanvas a) /\
  cv_height (_cacheCanvas a') = cv_height (_cacheCanvas a) /\
  cv_state (_cacheCanvas a') = cv_state (_cacheCanvas a) /\
  cv_stack (_cacheCanvas a') = cv_stack (_cacheCanvas a) /\
  globalAlpha (cv_state (_tmpCanvas a')) = globalAlpha (cv_state (_tmpCanvas a)) /\
  (fst (_drawToCache_st B a g i) = Ok tt ->
     cv_state (_tmpCanvas a') = cv_state (_tmpCanvas a) /\
     cv_stack (_tmpCanvas a') = cv_stack (_tmpCanvas a)) /\
  (fst (_drawToCache_st B a g i) = TypeError ->
     _cacheCanvas a' = _cacheCanvas a /\
     cv_stack (_tmpCanvas a') = cv_state (_tmpCanvas a) :: cv_stack (_tmpCanvas a)).
Proof.
  unfold _drawToCache_st, defined, _toCoordinates; cbv zeta.
  split_ifs_goal; simpl; repeat (split || intro); try discriminate; reflexivity.
Qed.

Lemma construct_inv cfg : valid_config cfg -> inv (construct cfg).
Proof.
  intros Hv; pose proof Hv as (Hw & Hh & _).
  constructor; simpl; auto; try constructor; unfold map_size; simpl.
  - apply Z.mul_nonneg_nonneg; apply Z.div_pos; unfold TEXTURE_WIDTH, TEXTURE_HEIGHT; lia.
Qed.

End Invariant.

(** ** The three paths of [draw] *)

Section DrawPaths.
Context (B : Browser).

Lemma nodup_snoc {A} (l : list A) x : NoDup l -> ~ In x l -> NoDup (l ++ [x]).
Proof.
  intros Hnd Hn; apply (Permutation_NoDup (Permutation_cons_append l x)); constructor; auto.
Qed.

(** [draw] takes the hit path, the uncacheable path, the fresh-slot path or
    the eviction path. *)
Lemma draw_cases a ctx g x y b a' ctx' :
  draw B a ctx g x y = Ok (b, a', ctx') ->
  let k := getGlyphCacheKey g in
  let m := _cacheMap a in
  (exists i, map_get k m = Some i /\ b = true /\
     a' = with_cacheMap a (map_set k i (map_delete k m)) /\
     ctx' = _drawFromCache B a' ctx i x y) \/
  (map_get k m = None /\ _canCache g = false /\ b = false /\ a' = a /\ ctx' = ctx) \/
  (map_get k m = None /\ _canCache g = true /\ b = true /\ map_size m < _capacity a /\
     exists a1, _drawToCache B (with_cacheMap a m) g (map_size m) = Ok a1 /\
     a' = with_cacheMap a1 (map_set k (map_size m) (_cacheMap a1)) /\
     ctx' = _drawFromCache B a' ctx (map_size m) x y) \/
  (map_get k m = None /\ _canCache g = true /\ b = true /\ _capacity a <= map_size m /\
     exists e r a1, m = e :: r /\ _drawToCache B (with_cacheMap a r) g (snd e) = Ok a1 /\
     a' = with_cacheMap a1 (map_set k (snd e) (_cacheMap a1)) /\
     ctx' = _drawFromCache B a' ctx (snd e) x y).
Proof.
  intros H; rewrite draw_eq in H; cbv zeta; cbv zeta in H.
  set (k := getGlyphCacheKey g) in *; set (m := _cacheMap a) in *.
  destruct (map_get k m) as [i|] eqn:Hget.
  - left; injection H as <- <- <-; eauto.
  - destruct (_canCache g) eqn:Hc.
    + destruct (map_size m <? _capacity a) eqn:Hlt.
      * right; right; left; apply Z.ltb_lt in Hlt; simpl in H.
        destruct (_drawToCache B (with_cacheMap a m) g (map_size m)) as [a1|] eqn:Hd;
          simpl in H; [|discriminate].
        injection H as <- <- <-; repeat split; auto; eauto.
      * right; right; right; apply Z.ltb_ge in Hlt.
        destruct m as [|e r] eqn:Hm; simpl in H; [discriminate|].
        destruct (_drawToCache B (with_cacheMap a r) g (snd e)) as [a1|] eqn:Hd;
          simpl in H; [|discriminate].
        injection H as <- <- <-; repeat split; auto; eauto 7.
    + right; left; injection H as <- <- <-; auto.
Qed.

Lemma draw_inv a ctx g x y b a' ctx' :
  inv a -> draw B a ctx g x y = Ok (b, a', ctx') -> inv a'.
Proof.
  intros I H; destruct (draw_cases _ _ _ _ _ _ _ _ H)
    as [(i & Hget & -> & -> & ->) | [(Hget & Hc & -> & -> & ->) |
        [(Hget & Hc & -> & Hlt & a1 & Hd & -> & ->) |
         (Hget & Hc & -> & Hge & e & r & a1 & Hm & Hd & -> & ->)]]];
    [| exact I | |].
  - (* hit *)
    pose proof (map_delete_perm _ _ _ (inv_keys _ I) Hget) as Hp.
    rewrite <- map_move_to_end in Hp by (apply (inv_keys _ I) || exact Hget).
    destruct I; constructor; simpl; auto.
    + apply (Permutation_NoDup (Permutation_map fst Hp)); auto.
    + apply (Permutation_NoDup (Permutation_map snd Hp)); auto.
    + unfold map_size in *; rewrite <- (Permutation_length Hp).
      rewrite Forall_forall in *; intros v Hv; apply inv_range0.
      apply (Permutation_in _ (Permutation_sym (Permutation_map snd Hp))); exact Hv.
    + unfold map_size in *; rewrite <- (Permutation_length Hp); exact inv_size0.
  - (* fresh slot *)
    apply map_get_none in Hget.
    destruct (drawToCache_frame _ _ _ _ _ Hd) as (Hcf & Hcm & Hcap & Hw & Hh & Hts & Htk & Htw & Hth & Hcw & Hch).
    simpl in *; rewrite Hcm, map_set_new by exact Hget.
    destruct I; constructor; simpl; try congruence.
    + rewrite map_app; apply nodup_snoc; auto.
    + rewrite map_app; apply nodup_snoc; auto.
      rewrite Forall_forall in inv_range0; intros Hin; apply inv_range0 in Hin; simpl in Hin; lia.
    + unfold map_size in *; rewrite length_app, map_app; simpl.
      apply Forall_app; split.
      * eapply Forall_impl; [|exact inv_range0]; simpl; intros; lia.
      * constructor; [lia | constructor].
    + unfold map_size in *; rewrite length_app; simpl; lia.
  - (* eviction *)
    apply map_get_none in Hget; rewrite Hm in Hget; simpl in Hget.
    destruct (drawToCache_frame _ _ _ _ _ Hd) as (Hcf & Hcm & Hcap & Hw & Hh & Hts & Htk & Htw & Hth & Hcw & Hch).
    simpl in *; rewrite Hcm, map_set_new by tauto.
    destruct I; rewrite Hm in *; simpl in *; constructor; simpl; try congruence.
    + inversion inv_keys0; subst; rewrite map_app; apply nodup_snoc; tauto.
    + inversion inv_vals0; subst; rewrite map_app; apply nodup_snoc; auto.
    + unfold map_size in *; rewrite length_app, map_app; simpl.
      inversion inv_range0; subst; apply Forall_app; split.
      * eapply Forall_impl; [|eassumption]; simpl; intros; cbn [length] in *; lia.
      * constructor; [cbn [length] in *; lia | constructor].
    + unfold map_size in *; rewrite length_app; simpl in *; cbn [length] in *; lia.
Qed.

Lemma reachable_no_throw_inv a : reachable_no_throw B a -> inv a.
Proof.
  induction 1; [apply construct_inv; assumption | eapply draw_inv; eassumption].
Qed.

(** A call that returns leaves the object that [draw] reports. *)
Lemma draw_st_ok a ctx g x y b a' ctx' :
  draw B a ctx g x y = Ok (b, a', ctx') -> draw_st B a ctx g x y = (Ok (b, ctx'), a').
Proof.
  unfold draw; destruct (draw_st B a ctx g x y) as [[[b0 c0]|] a0]; intros H; [|discriminate].
  injection H as <- <- <-; reflexivity.
Qed.

Lemma reachable_no_throw_reachable a : reachable_no_throw B a -> reachable B a.
Proof.
  induction 1 as [cfg Hv | a ctx g x y b a' ctx' R IH Hd].
  - apply reachable_construct; exact Hv.
  - pose proof (reachable_call B a ctx g x y IH) as R'.
    rewrite (draw_st_ok _ _ _ _ _ _ _ _ Hd) in R'; exact R'.
Qed.

(** [draw] as the object sees it: the hit path, the uncacheable path, the
    throw of [mapShift(...)[1]] on the empty map, and a miss that calls
    [_drawToCache] on slot [i] with the map [m'] (the map itself while it is
    not full, its tail after [mapShift] otherwise), which returns or throws. *)
Lemma draw_st_cases a ctx g x y :
  (exists i, map_get (getGlyphCacheKey g) (_cacheMap a) = Some i /\
     draw_st B a ctx g x y =
       (Ok (true, _drawFromCache B (with_cacheMap a (map_set (getGlyphCacheKey g) i
                    (map_delete (getGlyphCacheKey g) (_cacheMap a)))) ctx i x y),
        with_cacheMap a (map_set (getGlyphCacheKey g) i
                           (map_delete (getGlyphCacheKey g) (_cacheMap a))))) \/
  (map_get (getGlyphCacheKey g) (_cacheMap a) = None /\ _canCache g = false /\
     draw_st B a ctx g x y = (Ok (false, ctx), a)) \/
  (map_get (getGlyphCacheKey g) (_cacheMap a) = None /\ _canCache g = true /\
     _cacheMap a = [] /\ _capacity a <= 0 /\ draw_st B a ctx g x y = (TypeError, a)) \/
  (map_get (getGlyphCacheKey g) (_cacheMap a) = None /\ _canCache g = true /\
   exists i m',
     ((map_size (_cacheMap a) < _capacity a /\ i = map_size (_cacheMap a) /\ m' = _cacheMap a) \/
      (_capacity a <= map_size (_cacheMap a) /\ exists e, _cacheMap a = e :: m' /\ i = snd e)) /\
     ((fst (_drawToCache_st B (with_cacheMap a m') g i) = TypeError /\
       draw_st B a ctx g x y = (TypeError, snd (_drawToCache_st B (with_cacheMap a m') g i))) \/
      (fst (_drawToCache_st B (with_cacheMap a m') g i) = Ok tt /\
       draw_st B a ctx g x y =
         (Ok (true, _drawFromCache B
                      (with_cacheMap (snd (_drawToCache_st B (with_cacheMap a m') g i))
                         (map_set (getGlyphCacheKey g) i
                            (_cacheMap (snd (_drawToCache_st B (with_cacheMap a m') g i)))))
                      ctx i x y),
          with_cacheMap (snd (_drawToCache_st B (with_cacheMap a m') g i))
            (map_set (getGlyphCacheKey g) i
               (_cacheMap (snd (_drawToCache_st B (with_cacheMap a m') g i)))))))).
Proof.
  destruct (map_get (getGlyphCacheKey g) (_cacheMap a)) as [i|] eqn:Hget.
  { left; exists i; split; [reflexivity|]; unfold draw_st; rewrite Hget; reflexivity. }
  right; destruct (_canCache g) eqn:Hc.
  2: { left; split; [reflexivity|]; split; [reflexivity|].
       unfold draw_st; rewrite Hget, Hc; reflexivity. }
  right; destruct (map_size (_cacheMap a) <? _capacity a) eqn:Hlt.
  - right; split; [reflexivity|]; split; [reflexivity|].
    exists (map_size (_cacheMap a)), (_cacheMap a).
    split; [left; apply Z.ltb_lt in Hlt; auto|].
    unfold draw_st; rewrite Hget, Hc, Hlt.
    destruct (_drawToCache_st B (with_cacheMap a (_cacheMap a)) g (map_size (_cacheMap a)))
      as [[[]|] a1]; simpl; auto.
  - pose proof Hlt as Hge; apply Z.ltb_ge in Hge.
    destruct (_cacheMap a) as [|e r] eqn:Hm.
    + left; split; [reflexivity|]; split; [reflexivity|]; split; [reflexivity|].
      split; [unfold map_size in Hge; simpl in Hge; lia|].
      unfold draw_st; rewrite Hm, Hget, Hc, Hlt; reflexivity.
    + right; split; [reflexivity|]; split; [reflexivity|].
      exists (snd e), r; split; [right; split; [exact Hge | exists e; auto]|].
      unfold draw_st; rewrite Hm, Hget, Hc, Hlt; cbn [mapShift].
      destruct (_drawToCache_st B (with_cacheMap a r) g (snd e)) as [[[]|] a1]; simpl; auto.
Qed.

End DrawPaths.

(** ** The invariant of every reachable state *)

Section Caught.
Context (B : Browser).

Lemma construct_winv cfg : valid_config cfg -> winv (construct cfg).
Proof.
  intros Hv; pose proof Hv as (Hw & Hh & _).
  constructor; simpl; auto; try constructor; unfold map_size; simpl; try reflexivity.
  apply Z.mul_nonneg_nonneg; apply Z.div_pos; unfold TEXTURE_WIDTH, TEXTURE_HEIGHT; lia.
Qed.

Lemma winv_with_map a m : winv a -> NoDup (map fst m) ->
  Forall (fun v => 0 <= v < _capacity a) (map snd m) -> map_size m <= _capacity a ->
  winv (with_cacheMap a m).
Proof. intros [] Hk Hr Hs; constructor; simpl; auto. Qed.

Lemma winv_perm a m : winv a -> Permutation (_cacheMap a) m -> winv (with_cacheMap a m).
Proof.
  intros W Hp; apply winv_with_map; [exact W | | |].
  - exact (Permutation_NoDup (Permutation_map fst Hp) (winv_keys _ W)).
  - pose proof (winv_range _ W) as F; rewrite Forall_forall in *; intros v Hv.
    apply F, (Permutation_in _ (Permutation_sym (Permutation_map snd Hp))), Hv.
  - unfold map_size; rewrite <- (Permutation_length Hp); exact (winv_size _ W).
Qed.

Lemma winv_tail a e m : winv a -> _cacheMap a = e :: m -> winv (with_cacheMap a m).
Proof.
  intros W Hm; pose proof (winv_keys _ W) as Hk; pose proof (winv_range _ W) as Hr.
  pose proof (winv_size _ W) as Hs; rewrite Hm in Hk, Hr, Hs.
  apply winv_with_map; [exact W | inversion Hk; assumption | inversion Hr; assumption |].
  unfold map_size in *; simpl in Hs; lia.
Qed.

Lemma winv_drawToCache a g i : winv a -> winv (snd (_drawToCache_st B a g i)).
Proof.
  intros W; destruct (drawToCache_st_frame B a g i)
    as (Hc & Hm & Hcap & Hw & Hh & Htw & Hth & Hcw & Hch & Hcs & Hck & Ha & _).
  destruct W; constructor;
    rewrite ?Hc, ?Hm, ?Hcap, ?Hw, ?Hh, ?Htw, ?Hth, ?Hcw, ?Hch, ?Hcs, ?Hck, ?Ha; auto.
Qed.

(** Every draw call keeps the invariant, whether it returns or throws. *)
Lemma winv_step a ctx g x y : winv a -> winv (snd (draw_st B a ctx g x y)).
Proof.
  intros W.
  destruct (draw_st_cases B a ctx g x y) as
    [(i & Hget & ->) | [(_ & _ & ->) | [(_ & _ & _ & _ & ->) |
     (Hget & _ & i & m' & Hslot & [(_ & ->) | (_ & ->)])]]]; simpl snd; try exact W.
  - apply winv_perm; [exact W|].
    rewrite map_move_to_end by (exact (winv_keys _ W) || exact Hget).
    exact (map_delete_perm _ _ _ (winv_keys _ W) Hget).
  - apply winv_drawToCache.
    destruct Hslot as [(_ & _ & ->) | (_ & e & Hm & _)];
      [apply winv_with_map; [exact W | apply W | apply W | apply W] | exact (winv_tail _ _ _ W Hm)].
  - set (a1 := snd (_drawToCache_st B (with_cacheMap a m') g i)).
    destruct (drawToCache_st_frame B (with_cacheMap a m') g i) as (_ & Hm1 & Hc1 & _).
    fold a1 in Hm1, Hc1; simpl in Hm1, Hc1.
    assert (W1 : winv a1).
    { apply winv_drawToCache.
      destruct Hslot as [(_ & _ & ->) | (_ & e & Hm & _)];
        [apply winv_with_map; [exact W | apply W | apply W | apply W] | exact (winv_tail _ _ _ W Hm)]. }
    pose proof (winv_keys _ W) as Hk; pose proof (winv_range _ W) as Hr;
      pose proof (winv_size _ W) as Hs.
    apply map_get_none in Hget.
    rewrite Hm1; apply winv_with_map; [exact W1 | | |]; rewrite ?Hm1, ?Hc1;
      destruct Hslot as [(Hlt & -> & ->) | (Hge & e & Hm & ->)];
      [| rewrite Hm in Hget, Hk, Hr, Hs; simpl in Hget, Hk, Hr, Hs
       | | rewrite Hm in Hget, Hk, Hr, Hs; simpl in Hget, Hk, Hr, Hs
       | | rewrite Hm in Hget, Hk, Hr, Hs; simpl in Hget, Hk, Hr, Hs];
      rewrite ?map_set_new by tauto.
    + rewrite map_app; apply nodup_snoc; assumption.
    + inversion Hk as [|? ? Hn Hnd]; rewrite map_app; apply nodup_snoc; tauto.
    + rewrite map_app; apply Forall_app; split; [exact Hr|].
      constructor; [unfold map_size in *; simpl; lia | constructor].
    + inversion Hr as [|? ? Hv Hrs]; rewrite map_app; apply Forall_app; split; [assumption|].
      constructor; [assumption | constructor].
    + unfold map_size in *; rewrite length_app; simpl; lia.
    + unfold map_size in *; rewrite length_app; simpl in *; lia.
Qed.

Lemma reachable_winv a : reachable B a -> winv a.
Proof.
  induction 1; [apply construct_winv; assumption | apply winv_step; assumption].
Qed.

Lemma reachable_capacity_nonneg a : reachable B a -> 0 <= _capacity a.
Proof.
  intros R; pose proof (winv_size _ (reachable_winv a R)); unfold map_size in *; lia.
Qed.

End Caught.

(** ** Slot geometry *)

Section Geometry.

Lemma in_rect_true x y w h px py :
  in_rect x y w h px py = true <-> x <= px < x + w /\ y <= py < y + h.
Proof.
  unfold in_rect; rewrite !andb_true_iff, !Z.leb_le, !Z.ltb_lt; tauto.
Qed.

(** Two cells of one column index (or row index) grid overlap only when the
    indices agree. *)
Lemma cell_overlap r1 r2 c p : 0 < c -> r1 * c <= p < r1 * c + c -> r2 * c <= p < r2 * c + c ->
  r1 = r2.
Proof.
  intros Hc H1 H2; destruct (Z.lt_trichotomy r1 r2) as [Hlt|[Heq|Hlt]]; [|exact Heq|]; exfalso.
  - assert ((r1 + 1) * c <= r2 * c) by (apply Z.mul_le_mono_nonneg_r; lia); lia.
  - assert ((r2 + 1) * c <= r1 * c) by (apply Z.mul_le_mono_nonneg_r; lia); lia.
Qed.

Section Grid.
Variables (W H cw ch : Z).
Hypotheses (Hcw : 0 < cw) (Hch : 0 < ch) (HW : 0 <= W) (HH : 0 <= H).

Let gw := W / cw.
Let gh := H / ch.

Lemma grid_width_pos s : 0 <= s < gw * gh -> 0 < gw.
Proof.
  intros Hs; assert (0 <= gw) by (apply Z.div_pos; lia).
  assert (0 <= gh) by (apply Z.div_pos; lia).
  destruct (Z.eq_dec gw 0) as [E|]; [rewrite E in Hs; lia | lia].
Qed.

Lemma slot_decompose s : 0 <= s < gw * gh ->
  s = gw * (s / gw) + Z.rem s gw /\ 0 <= Z.rem s gw < gw /\ 0 <= s / gw < gh.
Proof.
  intros Hs; pose proof (grid_width_pos s Hs) as Hg.
  rewrite Z.rem_mod_nonneg by lia.
  split; [apply Z.div_mod; lia|]; split; [apply Z.mod_pos_bound; lia|].
  split; [apply Z.div_pos; lia | apply Z.div_lt_upper_bound; lia].
Qed.

(** The cell of a slot lies inside the W x H texture. *)
Lemma slot_in_bounds s : 0 <= s < gw * gh ->
  0 <= Z.rem s gw * cw /\ Z.rem s gw * cw + cw <= W /\
  0 <= s / gw * ch /\ s / gw * ch + ch <= H.
Proof.
  intros Hs; destruct (slot_decompose s Hs) as (_ & Hr & Hq).
  assert (gw * cw <= W) by (rewrite Z.mul_comm; apply Z.mul_div_le; lia).
  assert (gh * ch <= H) by (rewrite Z.mul_comm; apply Z.mul_div_le; lia).
  repeat split; nia.
Qed.

(** The cells of two distinct slots share no pixel. *)
Lemma slot_cells_disjoint s1 s2 : 0 <= s1 < gw * gh -> 0 <= s2 < gw * gh -> s1 <> s2 ->
  forall px py,
    in_rect (Z.rem s1 gw * cw) (s1 / gw * ch) cw ch px py &&
    in_rect (Z.rem s2 gw * cw) (s2 / gw * ch) cw ch px py = false.
Proof.
  intros H1 H2 Hne px py.
  destruct (slot_decompose s1 H1) as (E1 & _); destruct (slot_decompose s2 H2) as (E2 & _).
  destruct (in_rect (Z.rem s1 gw * cw) (s1 / gw * ch) cw ch px py) eqn:R1; [|reflexivity].
  destruct (in_rect (Z.rem s2 gw * cw) (s2 / gw * ch) cw ch px py) eqn:R2; [|reflexivity].
  exfalso.
  apply in_rect_true in R1, R2; destruct R1 as [X1 Y1]; destruct R2 as [X2 Y2].
  pose proof (cell_overlap _ _ _ _ Hcw X1 X2) as Er.
  pose proof (cell_overlap _ _ _ _ Hch Y1 Y2) as Eq.
  apply Hne; rewrite E1, E2, Er, Eq; reflexivity.
Qed.

End Grid.
End Geometry.

(** ** The key encoding *)

Section KeyEncoding.

Lemma uint_to_js_inj d1 d2 : uint_to_js d1 = uint_to_js d2 -> d1 = d2.
Proof.
  revert d2; induction d1; destruct d2; simpl; intros H; try discriminate;
    try reflexivity; injection H as H; f_equal; auto.
Qed.

Lemma uint_to_js_digits d : Forall (fun u => 48 <= u <= 57) (uint_to_js d).
Proof. induction d; simpl; repeat constructor; auto; lia. Qed.

Lemma number_to_js_inj a b : number_to_js a = number_to_js b -> a = b.
Proof.
  unfold number_to_js; intros H; apply DecimalZ.to_int_inj.
  destruct (Z.to_int a) as [d1|d1], (Z.to_int b) as [d2|d2].
  - f_equal; apply uint_to_js_inj; exact H.
  - exfalso; pose proof (uint_to_js_digits d1) as F; rewrite H in F.
    inversion F; lia.
  - exfalso; pose proof (uint_to_js_digits d2) as F; rewrite <- H in F.
    inversion F; lia.
  - injection H as H; f_equal; apply uint_to_js_inj; exact H.
Qed.

(** A numeral contains no ['_'] (95). *)
Lemma number_to_js_no_sep n : ~ In 95 (number_to_js n).
Proof.
  unfold number_to_js; intros Hin.
  destruct (Z.to_int n) as [d|d]; [|destruct Hin as [Hin|Hin]; [lia|]];
    pose proof (uint_to_js_digits d) as F; rewrite Forall_forall in F;
    apply F in Hin; lia.
Qed.

(** Splitting at the first separator. *)
Lemma split_at_sep (a a' r r' : jsstring) :
  ~ In 95 a -> ~ In 95 a' -> a ++ 95 :: r = a' ++ 95 :: r' -> a = a' /\ r = r'.
Proof.
  revert a'; induction a as [|u a IH]; intros [|u' a'] Ha Ha' H; simpl in H.
  - injection H as H; auto.
  - injection H as <- _; exfalso; apply Ha'; left; reflexivity.
  - injection H as -> _; exfalso; apply Ha; left; reflexivity.
  - injection H as <- H.
    destruct (IH a') as [-> ->]; simpl in *; auto.
Qed.

Lemma flag_inj (b b' : bool) : (if b then 48 else 49) = (if b' then 48 else 49) -> b = b'.
Proof. destruct b, b'; simpl; congruence. Qed.

End KeyEncoding.

(** ** Cacheability *)

Section Cacheability.

(** [_canCache] reads the first UTF-16 code unit of the character only. *)
Lemma canCache_first_unit g :
  _canCache g = true <-> exists u r, char g = u :: r /\ u < 256.
Proof.
  unfold _canCache, charCodeAt0.
  destruct (char g) as [|u r]; [split; [discriminate | intros (? & ? & ? & _); discriminate]|].
  rewrite Z.ltb_lt; split; [intros; exists u, r; auto | intros (u' & r' & [= <- <-] & Hlt); exact Hlt].
Qed.

End Cacheability.

(** ** Recency and admission orders *)

Section Orders.

Lemma recency_in k t : In k (recency_order t) <-> In k t.
Proof.
  induction t as [|a t IH]; simpl; [tauto|].
  destruct (in_dec (list_eq_dec Z.eq_dec) a t); simpl; rewrite IH;
    split; try tauto; intros [->|]; tauto.
Qed.

Lemma recency_nodup t : NoDup (recency_order t).
Proof.
  induction t as [|a t IH]; simpl; [constructor|].
  destruct (in_dec (list_eq_dec Z.eq_dec) a t); [exact IH|].
  constructor; [rewrite recency_in; exact n | exact IH].
Qed.

Lemma recency_snoc t k : recency_order (t ++ [k]) = remove (list_eq_dec Z.eq_dec) k (recency_order t) ++ [k].
Proof.
  induction t as [|a t IH]; simpl.
  - destruct (list_eq_dec Z.eq_dec k k); [reflexivity | congruence].
  - rewrite IH.
    destruct (in_dec (list_eq_dec Z.eq_dec) a (t ++ [k])) as [Hin|Hin];
      destruct (in_dec (list_eq_dec Z.eq_dec) a t) as [Hin'|Hin'].
    + reflexivity.
    + apply in_app_or in Hin; destruct Hin as [|[->|[]]]; [tauto|].
      simpl; destruct (list_eq_dec Z.eq_dec a a); [reflexivity|congruence].
    + exfalso; apply Hin, in_or_app; left; exact Hin'.
    + simpl; destruct (list_eq_dec Z.eq_dec k a) as [<-|]; [|reflexivity].
      exfalso; apply Hin, in_or_app; right; left; reflexivity.
Qed.

(** The head of the recency order is the least recently accessed key: every
    other accessed key is accessed after its last access. *)
Lemma recency_head t e rest : recency_order t = e :: rest ->
  exists p s, t = p ++ e :: s /\ ~ In e s /\ (forall k, In k t -> k <> e -> In k s).
Proof.
  revert rest; induction t as [|a t IH]; simpl; intros rest H; [discriminate|].
  destruct (in_dec (list_eq_dec Z.eq_dec) a t) as [Hin|Hin].
  - destruct (IH rest H) as (p & s & -> & Hn & Hall).
    exists (a :: p), s; split; [reflexivity|]; split; [exact Hn|].
    intros k [<-|Hk] Hne; apply Hall; auto.
  - injection H as <- _; exists [], t; split; [reflexivity|]; split; [exact Hin|].
    intros k [<-|Hk] Hne; [congruence | exact Hk].
Qed.

Lemma admission_snoc t k :
  admission_order (t ++ [k]) =
  if in_dec (list_eq_dec Z.eq_dec) k (admission_order t) then admission_order t
  else admission_order t ++ [k].
Proof. unfold admission_order; rewrite fold_left_app; reflexivity. Qed.

Lemma admission_in_nodup t :
  NoDup (admission_order t) /\ (forall k, In k (admission_order t) <-> In k t).
Proof.
  induction t as [|a t IH] using rev_ind; [split; [constructor | simpl; tauto]|].
  destruct IH as [Hnd Hin]; rewrite admission_snoc.
  destruct (in_dec (list_eq_dec Z.eq_dec) a (admission_order t)) as [Ha|Ha].
  - split; [exact Hnd|]; intros k; rewrite Hin, in_app_iff; simpl.
    split; [tauto|]; intros [|[<-|[]]]; [assumption | apply Hin, Ha].
  - split; [apply nodup_snoc; auto|]; intros k; rewrite !in_app_iff, Hin; tauto.
Qed.

Lemma nodup_app_disjoint {A} (l l' : list A) x : NoDup (l ++ l') -> In x l -> In x l' -> False.
Proof.
  induction l as [|a l IH]; simpl; [tauto|]; intros Hnd [->|Hx] Hx'.
  - inversion Hnd as [|? ? Hn _]; apply Hn, in_or_app; right; exact Hx'.
  - inversion Hnd; eauto.
Qed.

Lemma length_recency_admission t : length (recency_order t) = length (admission_order t).
Proof.
  destruct (admission_in_nodup t) as [Hnd Hin].
  apply Nat.le_antisymm; apply NoDup_incl_length; auto using recency_nodup;
    intros k; rewrite Hin, recency_in; tauto.
Qed.

Lemma index_of_snoc_other k k' l : k' <> k -> index_of k' (l ++ [k]) = index_of k' l.
Proof.
  intros Hne; induction l as [|a l IH]; simpl.
  - destruct (jsstring_eqb k' k) eqn:E; [apply jsstring_eqb_eq in E; congruence | reflexivity].
  - rewrite IH; reflexivity.
Qed.

Lemma index_of_snoc_new k l : ~ In k l -> index_of k (l ++ [k]) = Some (Z.of_nat (length l)).
Proof.
  induction l as [|a l IH]; simpl; intros Hn.
  - rewrite jsstring_eqb_refl; reflexivity.
  - destruct (jsstring_eqb k a) eqn:E; [apply jsstring_eqb_eq in E; subst; tauto|].
    rewrite IH by tauto; simpl; f_equal; lia.
Qed.

Lemma index_of_in k l : In k l -> exists i, index_of k l = Some i.
Proof.
  induction l as [|a l IH]; simpl; [tauto|]; intros H.
  destruct (jsstring_eqb k a) eqn:E; [eauto|].
  destruct H as [->|H]; [rewrite jsstring_eqb_refl in E; discriminate|].
  destruct (IH H) as [i ->]; simpl; eauto.
Qed.

End Orders.

(** ** Draw calls that succeed *)

Section Success.
Context (B : Browser).

Lemma palette_ok cs z : length (ansi cs) = 256%nat -> valid_color_ref z ->
  (z =? INVERTED_DEFAULT_COLOR) = false -> z < 256 -> exists c, ansi_at cs z = Some c.
Proof.
  intros Hl [Hz|Hz] Hne Hlt; [apply Z.eqb_neq in Hne; contradiction|].
  unfold ansi_at; destruct (z <? 0) eqn:E; [apply Z.ltb_lt in E; lia|].
  destruct (nth_error (ansi cs) (Z.to_nat z)) eqn:En; [eauto|].
  apply nth_error_None in En; lia.
Qed.

Lemma drawToCache_ok a g i : length (ansi (colors (_config a))) = 256%nat ->
  valid_color_ref (bg g) -> valid_color_ref (fg g) -> exists a', _drawToCache B a g i = Ok a'.
Proof.
  intros Hl Hb Hf; rewrite drawToCache_eq; unfold _toCoordinates.
  destruct (bg g =? INVERTED_DEFAULT_COLOR) eqn:Eb1; [| destruct (bg g <? 256) eqn:Eb2];
    [| destruct (palette_ok _ _ Hl Hb Eb1 ltac:(apply Z.ltb_lt; assumption)) as [cb ->] |];
    simpl;
    (destruct (fg g =? INVERTED_DEFAULT_COLOR) eqn:Ef1; [| destruct (fg g <? 256) eqn:Ef2];
     [| destruct (palette_ok _ _ Hl Hf Ef1 ltac:(apply Z.ltb_lt; assumption)) as [cf ->] |];
     simpl; eauto).
Qed.

(** The colour [_drawToCache] resolves is the spec's. *)
Lemma resolve_bg cs z : length (ansi cs) = 256%nat -> valid_color_ref z ->
  (if z =? INVERTED_DEFAULT_COLOR then Ok (foreground cs)
   else if z <? 256 then defined (ansi_at cs z) else Ok (background cs)) =
  Ok (effective_bg cs z).
Proof.
  intros Hl Hv; unfold effective_bg.
  destruct (z =? INVERTED_DEFAULT_COLOR) eqn:E1; [reflexivity|].
  destruct (z <? 256) eqn:E2; [|reflexivity].
  destruct (palette_ok cs z Hl Hv E1 ltac:(apply Z.ltb_lt; exact E2)) as [c Hc].
  unfold defined; rewrite Hc; f_equal.
  unfold ansi_at in Hc; destruct (z <? 0); [discriminate|].
  symmetry; apply nth_error_nth; exact Hc.
Qed.

Lemma resolve_fg cs z : length (ansi cs) = 256%nat -> valid_color_ref z ->
  (if z =? INVERTED_DEFAULT_COLOR then Ok (background cs)
   else if z <? 256 then defined (ansi_at cs z) else Ok (foreground cs)) =
  Ok (effective_fg cs z).
Proof.
  intros Hl Hv; unfold effective_fg.
  destruct (z =? INVERTED_DEFAULT_COLOR) eqn:E1; [reflexivity|].
  destruct (z <? 256) eqn:E2; [|reflexivity].
  destruct (palette_ok cs z Hl Hv E1 ltac:(apply Z.ltb_lt; exact E2)) as [c Hc].
  unfold defined; rewrite Hc; f_equal.
  unfold ansi_at in Hc; destruct (z <? 0); [discriminate|].
  symmetry; apply nth_error_nth; exact Hc.
Qed.

(** With a non-zero capacity, a drawable glyph is always drawn. *)
Lemma draw_drawable a ctx g x y : length (ansi (colors (_config a))) = 256%nat ->
  1 <= _capacity a -> drawable g ->
  exists a' ctx', draw B a ctx g x y = Ok (true, a', ctx').
Proof.
  intros Hl Hc (Hcc & Hb & Hf); rewrite draw_eq; cbv zeta.
  destruct (map_get (getGlyphCacheKey g) (_cacheMap a)); [eauto|].
  rewrite Hcc.
  destruct (map_size (_cacheMap a) <? _capacity a) eqn:Hlt.
  - destruct (drawToCache_ok (with_cacheMap a (_cacheMap a)) g (map_size (_cacheMap a)) Hl Hb Hf)
      as [a1 Hd]; simpl; rewrite Hd; simpl; eauto.
  - apply Z.ltb_ge in Hlt; destruct (_cacheMap a) as [|e r] eqn:Hm;
      [unfold map_size in Hlt; simpl in Hlt; lia|].
    destruct (drawToCache_ok (with_cacheMap a r) g (snd e) Hl Hb Hf) as [a1 Hd].
    simpl; rewrite Hd; simpl; eauto.
Qed.

(** [draw] keeps the configuration and the derived grid. *)
Lemma draw_frame a ctx g x y b a' ctx' : draw B a ctx g x y = Ok (b, a', ctx') ->
  _config a' = _config a /\ _capacity a' = _capacity a /\ _width a' = _width a /\
  _height a' = _height a.
Proof.
  intros H; destruct (draw_cases B _ _ _ _ _ _ _ _ H)
    as [(i & _ & _ & -> & _) | [(_ & _ & _ & -> & _) |
        [(_ & _ & _ & _ & a1 & Hd & -> & _) | (_ & _ & _ & _ & e & r & a1 & _ & Hd & -> & _)]]];
    simpl; auto;
    destruct (drawToCache_frame B _ _ _ _ Hd) as (? & _ & ? & ? & ? & _); simpl in *; auto.
Qed.

End Success.

(** ** The cache refines an LRU of the accessed keys *)

Section LRU.
Context (B : Browser).

Lemma construct_lru_inv cfg : valid_config cfg -> 1 <= _capacity (construct cfg) ->
  lru_inv [] (construct cfg).
Proof.
  intros Hv Hc; split; [apply construct_inv; exact Hv|]; split; [exact Hc|]; split.
  - exists []; simpl; auto.
  - intros _ k; reflexivity.
Qed.

Lemma lru_step t a ctx g x y : lru_inv t a -> drawable g ->
  exists a' ctx', draw B a ctx g x y = Ok (true, a', ctx') /\
                  lru_inv (t ++ [getGlyphCacheKey g]) a'.
Proof.
  intros (I & Hc & (P & HP & Hfull) & Hslots) Hd.
  destruct (draw_drawable B a ctx g x y (proj2 (proj2 (inv_cfg _ I))) Hc Hd) as (a' & ctx' & H).
  exists a', ctx'; split; [exact H|].
  pose proof (draw_inv B _ _ _ _ _ _ _ _ I H) as I'.
  destruct (draw_frame B _ _ _ _ _ _ _ _ H) as (_ & Hcap & _ & _).
  pose proof (recency_nodup t) as Hnd; rewrite HP in Hnd.
  destruct (admission_in_nodup t) as [_ Hadm].
  split; [exact I'|]; split; [lia|].
  destruct (draw_cases B _ _ _ _ _ _ _ _ H)
    as [(i & Hget & _ & Ha' & _) | [(_ & Hcc & _) |
        [(Hget & _ & _ & Hlt & a1 & Hd1 & Ha' & _) |
         (Hget & _ & _ & Hge & e & r & a1 & Hm & Hd1 & Ha' & _)]]];
    set (k := getGlyphCacheKey g) in *.
  - (* hit: the key moves to the most recent end *)
    assert (Hk : In k (map fst (_cacheMap a))) by (eapply map_get_in_keys; eassumption).
    assert (HkP : ~ In k P) by (intros HkP; exact (nodup_app_disjoint _ _ _ Hnd HkP Hk)).
    rewrite Ha'; simpl; rewrite map_move_to_end by (apply (inv_keys _ I) || exact Hget).
    pose proof (map_delete_perm _ _ _ (inv_keys _ I) Hget) as Hperm.
    split.
    + exists P; rewrite recency_snoc, HP, remove_app, (notin_remove _ _ _ HkP), map_app,
        map_delete_keys by exact (inv_keys _ I); simpl.
      split; [rewrite <- app_assoc; reflexivity|]; unfold map_size in *; rewrite <- (Permutation_length Hperm); exact Hfull.
    + intros Hle k'; rewrite admission_snoc in *.
      destruct (in_dec (list_eq_dec Z.eq_dec) k (admission_order t)) as [_|Hn];
        [| exfalso; apply Hn, Hadm, recency_in; rewrite HP; apply in_or_app; right; exact Hk].
      rewrite <- Hslots by (rewrite ?Hcap in Hle; exact Hle).
      rewrite <- map_move_to_end by (apply (inv_keys _ I) || exact Hget).
      destruct (list_eq_dec Z.eq_dec k' k) as [->|Hne];
        [rewrite map_get_set_same; exact (eq_sym Hget)|].
      rewrite map_get_set_other, map_get_delete_other by exact Hne; reflexivity.
  - destruct Hd as [Hcc' _]; congruence.
  - (* a fresh slot *)
    apply map_get_none in Hget.
    destruct (drawToCache_frame B _ _ _ _ Hd1) as (_ & Hcm & Hc1 & _); simpl in Hcm, Hc1.
    assert (HP0 : P = []) by (destruct Hfull as [|Hf]; [assumption | lia]); subst P.
    simpl in HP.
    assert (Hkt : ~ In k t) by (rewrite <- recency_in, HP; exact Hget).
    rewrite Ha'; simpl; rewrite Hcm, map_set_new by exact Hget.
    split.
    + exists []; rewrite recency_snoc, HP, notin_remove, map_app by exact Hget.
      simpl; split; [reflexivity | left; reflexivity].
    + intros Hle k'; rewrite admission_snoc in *.
      destruct (in_dec (list_eq_dec Z.eq_dec) k (admission_order t)) as [Hin|Hn];
        [exfalso; apply Hkt, Hadm, Hin|].
      rewrite length_app in Hle; simpl in Hle; rewrite ?Hcap, ?Hc1 in Hle.
      rewrite <- map_set_new by exact Hget.
      destruct (list_eq_dec Z.eq_dec k' k) as [->|Hne].
      * rewrite map_get_set_same, index_of_snoc_new by exact Hn.
        unfold map_size; rewrite <- length_recency_admission, HP, length_map; reflexivity.
      * rewrite map_get_set_other, index_of_snoc_other by exact Hne.
        apply Hslots; lia.
  - (* eviction of the least recent entry *)
    apply map_get_none in Hget; rewrite Hm in Hget; simpl in Hget.
    destruct (drawToCache_frame B _ _ _ _ Hd1) as (_ & Hcm & Hc1 & _); simpl in Hcm, Hc1.
    assert (Hsz : map_size (_cacheMap a) = _capacity a) by (pose proof (inv_size _ I); lia).
    rewrite Ha'; simpl; rewrite Hcm, map_set_new by tauto.
    split.
    + exists (remove (list_eq_dec Z.eq_dec) k P ++ [fst e]).
      rewrite recency_snoc, HP, Hm, remove_app; simpl.
      destruct (list_eq_dec Z.eq_dec k (fst e)) as [Hke|_]; [exfalso; apply Hget; left; auto|].
      rewrite (notin_remove _ _ _ (fun H => Hget (or_intror H))), map_app.
      split; [rewrite <- !app_assoc; reflexivity|].
      right; unfold map_size in *; rewrite Hm in Hsz; rewrite length_app; simpl in *; lia.
    + intros Hle; exfalso.
      rewrite admission_snoc, ?Hcap, ?Hc1 in Hle.
      assert (Hlen : length (recency_order t) = (length P + length (_cacheMap a))%nat)
        by (rewrite HP, length_app, length_map; reflexivity).
      rewrite length_recency_admission in Hlen.
      unfold map_size in Hsz.
      destruct (in_dec (list_eq_dec Z.eq_dec) k (admission_order t)) as [Hin|Hn].
      * apply Hadm, recency_in in Hin; rewrite HP in Hin; apply in_app_or in Hin.
        destruct Hin as [HinP|Hin]; [|rewrite Hm in Hin; tauto].
        destruct P; [destruct HinP|]; simpl in Hlen; lia.
      * rewrite length_app in Hle; simpl in Hle; lia.
Qed.

Lemma lru_run t a calls : lru_inv t a ->
  Forall (fun '(_, g, _, _) => drawable g) calls ->
  exists a', run B a calls = Ok a' /\ lru_inv (t ++ trace calls) a'.
Proof.
  revert t a; induction calls as [|[[[ctx g] x] y] rest IH]; intros t a Hl Hall.
  - exists a; simpl; rewrite app_nil_r; auto.
  - inversion Hall as [|? ? Hg Hrest]; subst.
    destruct (lru_step t a ctx g x y Hl Hg) as (a1 & ctx1 & Hd & Hl1).
    destruct (IH _ _ Hl1 Hrest) as (a' & Hr & Hl').
    exists a'; simpl; rewrite Hd; simpl; split; [exact Hr|].
    rewrite <- app_assoc in Hl'; exact Hl'.
Qed.

Lemma run_capacity a calls a' : run B a calls = Ok a' -> _capacity a' = _capacity a.
Proof.
  revert a; induction calls as [|[[[ctx g] x] y] rest IH]; simpl; intros a H.
  - injection H as <-; reflexivity.
  - destruct (draw B a ctx g x y) as [[[b a1] c1]|] eqn:Hd; simpl in H; [|discriminate].
    rewrite (IH _ H); apply (draw_frame B _ _ _ _ _ _ _ _ Hd).
Qed.

(** Once exactly [capacity] distinct keys were accessed, the map holds all
    of them, in recency order, and is full. *)
Lemma lru_full t a : lru_inv t a -> Z.of_nat (length (admission_order t)) = _capacity a ->
  map fst (_cacheMap a) = recency_order t /\ map_size (_cacheMap a) = _capacity a.
Proof.
  intros (I & Hc & (P & HP & _) & Hslots) Hlen.
  destruct (admission_in_nodup t) as [_ Hadm].
  assert (Hall : forall k, In k t -> In k (map fst (_cacheMap a))).
  { intros k Hk; apply Hadm in Hk.
    destruct (index_of_in _ _ Hk) as [i Hi].
    rewrite <- Hslots in Hi by lia; eapply map_get_in_keys; exact Hi. }
  destruct P as [|p P].
  - simpl in HP; split; [symmetry; exact HP|].
    unfold map_size; rewrite <- Hlen, <- length_recency_admission, HP, length_map; reflexivity.
  - exfalso; pose proof (recency_nodup t) as Hnd; rewrite HP in Hnd.
    apply (nodup_app_disjoint _ _ p Hnd); [left; reflexivity|].
    apply Hall, recency_in; rewrite HP; left; reflexivity.
Qed.

End LRU.

(** ** What a draw call leaves of the other slots *)

Section Frame.
Context (B : Browser).

Lemma drawFromCache_view a ctx i x y :
  _drawFromCache B a ctx i x y =
  set_pixels ctx (paint_image B (cv_state ctx) (cell_view a i) x y
                    (scaledCharWidth (_config a)) (scaledCharHeight (_config a)) (cv_pixels ctx)).
Proof.
  unfold _drawFromCache, cell_view, drawImage; destruct (_toCoordinates a i); reflexivity.
Qed.

Lemma cell_view_with a m i : cell_view (with_cacheMap a m) i = cell_view a i.
Proof. reflexivity. Qed.

(** [_drawToCache] writes only inside the cell of its slot. *)
Lemma drawToCache_pixels a g j a' : _drawToCache B a g j = Ok a' ->
  forall px py,
    in_rect (fst (_toCoordinates a j)) (snd (_toCoordinates a j))
      (scaledCharWidth (_config a)) (scaledCharHeight (_config a)) px py = false ->
    cv_pixels (_cacheCanvas a') px py = cv_pixels (_cacheCanvas a) px py.
Proof.
  intros H px py Hout; rewrite drawToCache_eq in H; unfold _toCoordinates, defined in *; simpl in Hout.
  split_ifs H; simpl in H; try discriminate; injection H as <-; simpl; rewrite Hout; reflexivity.
Qed.

(** A write outside the cell of slot [j] leaves the cell of another slot. *)
Lemma cell_view_frame a a' i j :
  0 < scaledCharWidth (_config a) -> 0 < scaledCharHeight (_config a) ->
  _width a = TEXTURE_WIDTH / scaledCharWidth (_config a) ->
  _height a = TEXTURE_HEIGHT / scaledCharHeight (_config a) ->
  _capacity a = _width a * _height a ->
  0 <= i < _capacity a -> 0 <= j < _capacity a -> i <> j ->
  _config a' = _config a -> _width a' = _width a ->
  (forall px py,
     in_rect (fst (_toCoordinates a j)) (snd (_toCoordinates a j))
       (scaledCharWidth (_config a)) (scaledCharHeight (_config a)) px py = false ->
     cv_pixels (_cacheCanvas a') px py = cv_pixels (_cacheCanvas a) px py) ->
  cell_view a' i = cell_view a i.
Proof.
  intros Hcw Hch Hw Hh Hcap Hi Hj Hne Hc Hw' Hpix.
  unfold cell_view, _toCoordinates, crop in *; rewrite Hc, Hw'; simpl in Hpix.
  apply functional_extensionality; intros u; apply functional_extensionality; intros v.
  destruct (in_rect 0 0 _ _ u v) eqn:E; [|reflexivity].
  rewrite Hcap, Hw, Hh in Hi, Hj; rewrite Hw in Hpix |- *.
  pose proof (slot_cells_disjoint TEXTURE_WIDTH TEXTURE_HEIGHT _ _ Hcw Hch
                ltac:(unfold TEXTURE_WIDTH; lia) ltac:(unfold TEXTURE_HEIGHT; lia)
                i j Hi Hj Hne) as D.
  apply Hpix.
  specialize (D (Z.rem i (TEXTURE_WIDTH / scaledCharWidth (_config a)) * scaledCharWidth (_config a) + u)
                (i / (TEXTURE_WIDTH / scaledCharWidth (_config a)) * scaledCharHeight (_config a) + v)).
  apply in_rect_true in E.
  rewrite (proj2 (in_rect_true _ _ _ _ _ _)) in D by lia; exact D.
Qed.

(** A draw call after which a resident key is still resident keeps its slot
    and the pixels of its cell. *)
Lemma step_keeps a ctx g x y b a' c' k i : inv a -> draw B a ctx g x y = Ok (b, a', c') ->
  map_get k (_cacheMap a) = Some i -> map_get k (_cacheMap a') <> None ->
  map_get k (_cacheMap a') = Some i /\ cell_view a' i = cell_view a i.
Proof.
  intros I H Hk Hk'.
  pose proof I as [[Hcw [Hch _]] Hw Hh Hcap Hnd Hvals Hrange Hsize _ _ _ _].
  rewrite Forall_forall in Hrange.
  assert (Hik : 0 <= i < map_size (_cacheMap a))
    by (apply Hrange; apply map_get_in in Hk; apply (in_map snd) in Hk; exact Hk).
  destruct (draw_cases B _ _ _ _ _ _ _ _ H)
    as [(j & Hget & _ & -> & _) | [(_ & _ & _ & -> & _) |
        [(Hget & _ & _ & Hlt & a1 & Hd & -> & _) |
         (Hget & _ & _ & Hge & e & r & a1 & Hm & Hd & -> & _)]]].
  - split; [|reflexivity]; simpl.
    destruct (list_eq_dec Z.eq_dec k (getGlyphCacheKey g)) as [->|Hne].
    + rewrite map_get_set_same; congruence.
    + rewrite map_get_set_other, map_get_delete_other by exact Hne; exact Hk.
  - auto.
  - destruct (drawToCache_frame B _ _ _ _ Hd) as (Hc1 & Hcm & _ & Hw1 & _); simpl in *.
    assert (Hne : k <> getGlyphCacheKey g) by (intros ->; congruence).
    rewrite map_get_set_other, Hcm by exact Hne; split; [exact Hk|].
    rewrite cell_view_with.
    apply (cell_view_frame (with_cacheMap a (_cacheMap a)) a1 i (map_size (_cacheMap a)));
      simpl; auto; try lia.
    apply (drawToCache_pixels _ _ _ _ Hd).
  - destruct (drawToCache_frame B _ _ _ _ Hd) as (Hc1 & Hcm & _ & Hw1 & _); simpl in *.
    assert (Hne : k <> getGlyphCacheKey g) by (intros ->; congruence).
    rewrite map_get_set_other, Hcm in * by exact Hne.
    assert (Hke : k <> fst e).
    { intros ->; apply Hk'; apply map_get_none.
      rewrite Hm in Hnd; simpl in Hnd; apply NoDup_cons_iff in Hnd; tauto. }
    assert (Hkr : map_get k r = Some i).
    { rewrite Hm in Hk; destruct e as [ek ev]; simpl in Hk, Hke.
      destruct (jsstring_eqb k ek) eqn:E; [apply jsstring_eqb_eq in E; contradiction | exact Hk]. }
    split; [exact Hkr|].
    assert (Hei : i <> snd e).
    { intros Hie; apply Hke; apply (nodup_vals_same_key (_cacheMap a) _ _ i Hvals).
      - apply map_get_in; exact Hk.
      - rewrite Hm, Hie; left; destruct e; reflexivity. }
    assert (He : 0 <= snd e < map_size (_cacheMap a))
      by (apply Hrange; rewrite Hm; left; reflexivity).
    rewrite cell_view_with.
    apply (cell_view_frame (with_cacheMap a r) a1 i (snd e)); simpl; auto; try lia.
    apply (drawToCache_pixels _ _ _ _ Hd).
Qed.

(** A draw that returns true leaves the glyph's key resident, and its output
    is the copy of the key's cell. *)
Lemma draw_true_slot a ctx g x y a' out : draw B a ctx g x y = Ok (true, a', out) ->
  exists i, map_get (getGlyphCacheKey g) (_cacheMap a') = Some i /\
            out = _drawFromCache B a' ctx i x y.
Proof.
  intros H; destruct (draw_cases B _ _ _ _ _ _ _ _ H)
    as [(j & _ & _ & -> & ->) | [(_ & _ & Hb & _) |
        [(_ & _ & _ & _ & a1 & _ & -> & ->) | (_ & _ & _ & _ & e & r & a1 & _ & _ & -> & ->)]]];
    [| discriminate | |]; eexists; split; try reflexivity; simpl; apply map_get_set_same.
Qed.

End Frame.

(** ** Concrete reachable states *)

Section Runs.
Context (B : Browser).

Lemma run_reachable_no_throw a calls a' :
  reachable_no_throw B a -> run B a calls = Ok a' -> reachable_no_throw B a'.
Proof.
  revert a; induction calls as [|[[[ctx g] x] y] rest IH]; simpl; intros a R H.
  - injection H as <-; exact R.
  - destruct (draw B a ctx g x y) as [[[b a1] c1]|] eqn:Hd; simpl in H; [|discriminate].
    exact (IH a1 (reachable_no_throw_draw B _ _ _ _ _ _ _ _ R Hd) H).
Qed.

Lemma atlas_after_reachable_no_throw a calls : reachable_no_throw B a ->
  match run B a calls with Ok _ => true | TypeError => false end = true ->
  reachable_no_throw B (atlas_after B a calls).
Proof.
  unfold atlas_after; destruct (run B a calls) eqn:E; intros R H; [|discriminate].
  exact (run_reachable_no_throw _ _ _ R E).
Qed.

Lemma run_st_reachable a calls : reachable B a -> reachable B (run_st B a calls).
Proof.
  revert a; induction calls as [|[[[ctx g] x] y] rest IH]; simpl; intros a R; [exact R|].
  apply IH, reachable_call, R.
Qed.

(** A call whose result is a hit-or-miss [true] is a call of [draw] that
    returns it. *)
Lemma draw_of_hit a ctx g x y c : hit_output (draw_st B a ctx g x y) = Some c ->
  draw B a ctx g x y = Ok (true, snd (draw_st B a ctx g x y), c).
Proof.
  unfold hit_output, draw; destruct (draw_st B a ctx g x y) as [[[[] c0]|] a0]; simpl;
    intros H; try discriminate; injection H as <-; reflexivity.
Qed.

End Runs.

Lemma valid_cfg_cells w h : 0 < w -> 0 < h -> valid_config (cfg_cells w h).
Proof. intros; split; [exact H|]; split; [exact H0 | reflexivity]. Qed.

Lemma full4_reachable_no_throw : reachable_no_throw B0 full4.
Proof.
  apply atlas_after_reachable_no_throw; [apply reachable_no_throw_construct, valid_cfg_cells; lia |].
  vm_compute; reflexivity.
Qed.

Lemma full4_reachable : reachable B0 full4.
Proof. apply reachable_no_throw_reachable, full4_reachable_no_throw. Qed.

Ltac drawable_tac :=
  split; [vm_compute; reflexivity | split; right; vm_compute; let E := fresh "E" in intros E; discriminate E].

(** * Claims *)

Section Claims.

(** C3 (code bug): in every state reachable from a fresh atlas by draw
    calls, each of which returned or threw, the cache map has at most
    [capacity] entries, no key twice, and every slot in [0, capacity).  But
    two keys can share a slot: on the 4-slot atlas filled with "A", "B", "C"
    and "D" (slots 0 to 3), a draw of a glyph with background id -5 evicts
    "A" through [mapShift] and then throws in [_drawToCache], leaving three
    entries; the next new glyph "F" takes slot [map.size] = 3, which "D"
    still holds. *)
Theorem C3_caught_throw_shares_slot (B : Browser) :
  (forall a, reachable B a ->
     map_size (_cacheMap a) <= _capacity a /\
     NoDup (map fst (_cacheMap a)) /\
     (forall k v, In (k, v) (_cacheMap a) -> 0 <= v < _capacity a)) /\
  (let a := run_st B (construct (cfg_cells 512 512))
              (calls_of ["A"; "B"; "C"; "D"]%string ++
               [(canvas0, bad_bg_glyph "E", 0, 0); (canvas0, glyph_of "F", 0, 0)]) in
   reachable B a /\
   _cacheMap a = [(getGlyphCacheKey (glyph_of "B"), 1); (getGlyphCacheKey (glyph_of "C"), 2);
                  (getGlyphCacheKey (glyph_of "D"), 3); (getGlyphCacheKey (glyph_of "F"), 3)] /\
   getGlyphCacheKey (glyph_of "D") <> getGlyphCacheKey (glyph_of "F")).
Proof.
  split.
  - intros a R; pose proof (reachable_winv B a R) as W.
    split; [exact (winv_size _ W)|]; split; [exact (winv_keys _ W)|].
    intros k v Hin; pose proof (winv_range _ W) as F; rewrite Forall_forall in F.
    apply (in_map snd) in Hin; exact (F _ Hin).
  - cbv zeta; split.
    + apply run_st_reachable, reachable_construct, valid_cfg_cells; lia.
    + split; [vm_compute; reflexivity | vm_compute; intros H; discriminate H].
Qed.

(** C4 (code bug): [draw] returns false exactly when the glyph's key is not
    in the map and [_canCache] rejects it, and then it changes neither the
    atlas nor the destination; [_canCache] looks only at the first UTF-16
    code unit of the character, whatever the colours, bold and dim.  So a
    combining sequence that starts with a character below 256, such as
    "A" followed by U+0300, is accepted and cached, where the spec's policy
    rejects combining sequences. *)
Theorem C4_canCache_accepts_combining_sequences (B : Browser) :
  (forall a ctx g x y,
     ((exists a' ctx', draw B a ctx g x y = Ok (false, a', ctx')) <->
        map_get (getGlyphCacheKey g) (_cacheMap a) = None /\ _canCache g = false) /\
     (forall a' ctx', draw B a ctx g x y = Ok (false, a', ctx') -> a' = a /\ ctx' = ctx)) /\
  (forall g, _canCache g = true <-> exists u r, char g = u :: r /\ u < 256) /\
  (forall g bg' fg' bold' dim',
     _canCache {| char := char g; bg := bg'; fg := fg'; bold := bold'; dim := dim' |} =
     _canCache g) /\
  (forall a ctx g x y rest, reachable B a -> 1 <= _capacity a -> drawable g ->
     let g' := {| char := char g ++ rest; bg := bg g; fg := fg g; bold := bold g; dim := dim g |} in
     _canCache g' = true /\
     exists a' ctx', draw B a ctx g' x y = Ok (true, a', ctx') /\
                     map_get (getGlyphCacheKey g') (_cacheMap a') <> None) /\
  (let g := {| char := js "A" ++ [768]; bg := 257; fg := 256; bold := false; dim := false |} in
   _canCache g = true /\
   exists a' ctx', draw B0 full4 canvas0 g 0 0 = Ok (true, a', ctx') /\
                   map_get (getGlyphCacheKey g) (_cacheMap a') <> None).
Proof.
  assert (Hcomb : forall (B : Browser) a ctx g x y rest, reachable B a -> 1 <= _capacity a ->
     drawable g ->
     let g' := {| char := char g ++ rest; bg := bg g; fg := fg g; bold := bold g; dim := dim g |} in
     _canCache g' = true /\
     exists a' ctx', draw B a ctx g' x y = Ok (true, a', ctx') /\
                     map_get (getGlyphCacheKey g') (_cacheMap a') <> None).
  { intros B' a ctx g x y rest R Hc (Hcc & Hb & Hf); cbv zeta.
    set (g' := {| char := char g ++ rest; bg := bg g; fg := fg g; bold := bold g; dim := dim g |}).
    assert (Hcc' : _canCache g' = true).
    { apply canCache_first_unit in Hcc; destruct Hcc as (u & r & Hu & Hlt).
      apply canCache_first_unit; exists u, (r ++ rest); simpl; rewrite Hu; auto. }
    split; [exact Hcc'|].
    destruct (draw_drawable B' a ctx g' x y (proj2 (proj2 (winv_cfg _ (reachable_winv B' a R))))
                Hc (conj Hcc' (conj Hb Hf))) as (a' & ctx' & Hd).
    exists a', ctx'; split; [exact Hd|].
    destruct (draw_true_slot B' _ _ _ _ _ _ _ Hd) as (i & Hi & _); rewrite Hi; discriminate. }
  split; [|split; [apply canCache_first_unit | split; [reflexivity | split]]].
  - intros a ctx g x y; split; [split|].
    + intros (a' & ctx' & H).
      destruct (draw_cases B _ _ _ _ _ _ _ _ H)
        as [(? & _ & ? & _) | [(? & ? & _) | [(_ & _ & ? & _) | (_ & _ & ? & _)]]];
        try discriminate; auto.
    + intros [Hget Hc]; exists a, ctx; rewrite draw_eq; cbv zeta; rewrite Hget, Hc; reflexivity.
    + intros a' ctx' H.
      destruct (draw_cases B _ _ _ _ _ _ _ _ H)
        as [(? & _ & ? & _) | [(_ & _ & _ & ? & ?) | [(_ & _ & ? & _) | (_ & _ & ? & _)]]];
        try discriminate; auto.
  - exact (Hcomb B).
  - exact (Hcomb B0 full4 canvas0 (glyph_of "A") 0 0 [768] full4_reachable
             ltac:(vm_compute; intros H; discriminate H) ltac:(drawable_tac)).
Qed.

(** C6: [getGlyphCacheKey] gives two glyphs the same key exactly when they
    agree on background, foreground, bold, dim and character. *)
Theorem C6_glyph_key_injective g1 g2 :
  getGlyphCacheKey g1 = getGlyphCacheKey g2 <->
  bg g1 = bg g2 /\ fg g1 = fg g2 /\ bold g1 = bold g2 /\ dim g1 = dim g2 /\ char g1 = char g2.
Proof.
  split; [|destruct g1, g2; simpl; intros (-> & -> & -> & -> & ->); reflexivity].
  unfold getGlyphCacheKey; simpl; intros H.
  apply split_at_sep in H; try apply number_to_js_no_sep; destruct H as [Hb H].
  simpl in H.
  apply split_at_sep in H; try apply number_to_js_no_sep; destruct H as [Hf H].
  injection H as Hbo Hdi Hch.
  apply number_to_js_inj in Hb, Hf; apply flag_inj in Hbo, Hdi; auto.
Qed.

(** C7: with gridWidth = floor(1024 / cellWidth) and gridHeight =
    floor(1024 / cellHeight), every slot of [0, capacity) has its cell
    inside the texture, two distinct slots have cells sharing no pixel, and
    [_toCoordinates] is injective on [0, capacity). *)
Theorem C7_slot_geometry cfg s1 s2 :
  0 < scaledCharWidth cfg -> 0 < scaledCharHeight cfg ->
  let a := construct cfg in
  let cw := scaledCharWidth cfg in
  let ch := scaledCharHeight cfg in
  0 <= s1 < _capacity a -> 0 <= s2 < _capacity a ->
  (_toCoordinates a s1 = _toCoordinates a s2 -> s1 = s2) /\
  (0 <= fst (_toCoordinates a s1) /\ fst (_toCoordinates a s1) + cw <= TEXTURE_WIDTH /\
   0 <= snd (_toCoordinates a s1) /\ snd (_toCoordinates a s1) + ch <= TEXTURE_HEIGHT) /\
  (s1 <> s2 -> forall px py,
     in_rect (fst (_toCoordinates a s1)) (snd (_toCoordinates a s1)) cw ch px py &&
     in_rect (fst (_toCoordinates a s2)) (snd (_toCoordinates a s2)) cw ch px py = false).
Proof.
  intros Hcw Hch a cw ch H1 H2; subst a cw ch; unfold _toCoordinates; simpl in *.
  assert (HW : 0 <= TEXTURE_WIDTH) by (unfold TEXTURE_WIDTH; lia).
  assert (HH : 0 <= TEXTURE_HEIGHT) by (unfold TEXTURE_HEIGHT; lia).
  pose proof (slot_cells_disjoint _ _ _ _ Hcw Hch HW HH s1 s2 H1 H2) as D.
  split; [|split; [apply slot_in_bounds; auto | exact D]].
  intros E; destruct (Z.eq_dec s1 s2) as [|Hne]; [assumption|exfalso].
  injection E as Ex Ey; specialize (D Hne (Z.rem s1 (TEXTURE_WIDTH / scaledCharWidth cfg) *
    scaledCharWidth cfg) (s1 / (TEXTURE_WIDTH / scaledCharWidth cfg) * scaledCharHeight cfg)).
  rewrite Ex, Ey in D.
  assert (R : forall x y, in_rect x y (scaledCharWidth cfg) (scaledCharHeight cfg) x y = true)
    by (intros; apply in_rect_true; lia).
  rewrite !R in D; discriminate.
Qed.

(** C1: from a fresh atlas of capacity c >= 1, along any sequence of draws of
    cacheable glyphs: while at most c distinct keys have been accessed, every
    accessed key is resident and sits in slot 0, 1, 2, ... in the order of its
    first access (so nothing was evicted); once exactly c distinct keys were
    accessed, drawing a new cacheable glyph evicts exactly the key [e] whose
    last access is the oldest (every other accessed key was accessed after
    it), and binds the new key, at the most recent end, to [e]'s slot. *)
Theorem C1_lru_admission_and_eviction (B : Browser) cfg calls ctx g x y :
  valid_config cfg -> 1 <= _capacity (construct cfg) ->
  Forall (fun '(_, g, _, _) => drawable g) calls ->
  (Z.of_nat (length (admission_order (trace calls))) <= _capacity (construct cfg) ->
   exists a, run B (construct cfg) calls = Ok a /\
     forall k, map_get k (_cacheMap a) = index_of k (admission_order (trace calls))) /\
  (Z.of_nat (length (admission_order (trace calls))) = _capacity (construct cfg) ->
   drawable g -> ~ In (getGlyphCacheKey g) (trace calls) ->
   exists a a' ctx' p e s,
     run B (construct cfg) calls = Ok a /\
     draw B a ctx g x y = Ok (true, a', ctx') /\
     trace calls = p ++ e :: s /\ ~ In e s /\
     (forall k, In k (trace calls) -> k <> e -> In k s) /\
     map fst (_cacheMap a') =
       remove (list_eq_dec Z.eq_dec) e (map fst (_cacheMap a)) ++ [getGlyphCacheKey g] /\
     map_get (getGlyphCacheKey g) (_cacheMap a') = map_get e (_cacheMap a) /\
     map_get e (_cacheMap a') = None).
Proof.
  intros Hv Hc Hall.
  destruct (lru_run B [] (construct cfg) calls (construct_lru_inv cfg Hv Hc) Hall)
    as (a & Hr & Hl); simpl in Hl.
  pose proof (run_capacity B _ _ _ Hr) as Hca.
  split.
  - intros Hle; exists a; split; [exact Hr|].
    destruct Hl as (_ & _ & _ & Hs); apply Hs; lia.
  - intros Hlen Hg Hnot.
    destruct (lru_full _ _ Hl ltac:(lia)) as [Hkeys Hsz].
    destruct Hl as (I & Hc' & _ & _).
    destruct (draw_drawable B a ctx g x y (proj2 (proj2 (inv_cfg _ I))) Hc' Hg) as (a' & ctx' & Hd).
    destruct (draw_cases B _ _ _ _ _ _ _ _ Hd)
      as [(i & Hget & _) | [(_ & Hcc & _) | [(_ & _ & _ & Hlt & _) |
          (Hget & _ & _ & Hge & e & r & a1 & Hm & Hd1 & Ha' & _)]]].
    + exfalso; apply Hnot; apply map_get_in_keys in Hget.
      rewrite Hkeys, recency_in in Hget; exact Hget.
    + destruct Hg as [Hcc' _]; congruence.
    + lia.
    + rewrite Hm in Hkeys; simpl in Hkeys.
      destruct (recency_head _ _ _ (eq_sym Hkeys)) as (p & s & Ht & Hes & Hoth).
      exists a, a', ctx', p, (fst e), s.
      apply map_get_none in Hget; rewrite Hm in Hget; simpl in Hget.
      pose proof (inv_keys _ I) as Hnd; rewrite Hm in Hnd; simpl in Hnd.
      apply NoDup_cons_iff in Hnd; destruct Hnd as [He Hnd].
      destruct (drawToCache_frame B _ _ _ _ Hd1) as (_ & Hcm & _); simpl in Hcm.
      split; [exact Hr|]; split; [exact Hd|]; split; [exact Ht|]; split; [exact Hes|].
      split; [exact Hoth|].
      rewrite Ha'; simpl; rewrite Hcm, map_set_new by tauto; rewrite Hm; simpl.
      destruct (list_eq_dec Z.eq_dec (fst e) (fst e)) as [_|Hne]; [|congruence].
      rewrite (notin_remove _ _ _ He), map_app; split; [reflexivity|].
      destruct e as [ek ev]; simpl in *; rewrite jsstring_eqb_refl.
      rewrite <- map_set_new by tauto; rewrite map_get_set_same; split; [reflexivity|].
      rewrite map_get_set_other by (intros E; apply Hget; left; exact E).
      apply map_get_none; exact He.
Qed.

(** C2 (amended): in a reachable state whose map holds [capacity] >= 1
    keys, a draw of a resident key [K] is a hit that moves [K] to the most
    recent end.  With a capacity of at least 2, a following draw of a new
    cacheable glyph then evicts the first other key [e] of the insertion
    order (the least recent one but [K]), gives its slot to the new key, and
    leaves [K] resident in its slot.  With capacity 1 it evicts [K] itself
    and the new key takes [K]'s slot. *)
Theorem C2_hit_then_admit_amended (B : Browser) a ctx gK g x y :
  reachable B a -> 1 <= _capacity a -> map_size (_cacheMap a) = _capacity a ->
  map_get (getGlyphCacheKey gK) (_cacheMap a) <> None ->
  drawable g -> map_get (getGlyphCacheKey g) (_cacheMap a) = None ->
  exists a1 c1,
    draw B a ctx gK x y = Ok (true, a1, c1) /\
    (2 <= _capacity a ->
     exists e rest,
     remove (list_eq_dec Z.eq_dec) (getGlyphCacheKey gK) (map fst (_cacheMap a)) = e :: rest /\
     exists a2 c2,
     draw B a1 ctx g x y = Ok (true, a2, c2) /\
     map fst (_cacheMap a2) = rest ++ [getGlyphCacheKey gK; getGlyphCacheKey g] /\
     map_get (getGlyphCacheKey gK) (_cacheMap a2) = map_get (getGlyphCacheKey gK) (_cacheMap a) /\
     map_get e (_cacheMap a2) = None /\
     map_get (getGlyphCacheKey g) (_cacheMap a2) = map_get e (_cacheMap a)) /\
    (_capacity a = 1 ->
     exists a2 c2,
     draw B a1 ctx g x y = Ok (true, a2, c2) /\
     map fst (_cacheMap a2) = [getGlyphCacheKey g] /\
     map_get (getGlyphCacheKey gK) (_cacheMap a2) = None /\
     map_get (getGlyphCacheKey g) (_cacheMap a2) = map_get (getGlyphCacheKey gK) (_cacheMap a)).
Proof.
  intros R Hc1 Hfull HK Hg Hnew.
  pose proof (reachable_winv B a R) as W; pose proof (winv_keys _ W) as Hnd.
  pose proof (proj2 (proj2 (winv_cfg _ W))) as Hl.
  destruct (map_get (getGlyphCacheKey gK) (_cacheMap a)) as [i|] eqn:Hi; [clear HK|congruence].
  assert (HkgK : getGlyphCacheKey g <> getGlyphCacheKey gK)
    by (intros E; rewrite E, Hi in Hnew; discriminate).
  pose proof (map_delete_perm _ _ _ Hnd Hi) as Hperm.
  pose proof (map_delete_not_in (getGlyphCacheKey gK) _ Hnd) as HKd.
  pose proof (map_delete_keys (getGlyphCacheKey gK) _ Hnd) as Hkeys.
  pose proof (Permutation_NoDup (Permutation_map fst Hperm) Hnd) as Hndd.
  rewrite map_app in Hndd; apply nodup_app_l in Hndd.
  pose proof (map_set_new (getGlyphCacheKey gK) i _ HKd) as Hset.
  set (a1 := with_cacheMap a (map_delete (getGlyphCacheKey gK) (_cacheMap a) ++
                              [(getGlyphCacheKey gK, i)])).
  assert (Hd1 : draw B a ctx gK x y = Ok (true, a1, _drawFromCache B a1 ctx i x y))
    by (rewrite draw_eq; cbv zeta; rewrite Hi, Hset; reflexivity).
  assert (Hnew1 : map_get (getGlyphCacheKey g) (_cacheMap a1) = None).
  { change (_cacheMap a1) with (map_delete (getGlyphCacheKey gK) (_cacheMap a) ++
                                [(getGlyphCacheKey gK, i)]).
    rewrite <- Hset, map_get_set_other, map_get_delete_other by exact HkgK; exact Hnew. }
  destruct (draw_drawable B a1 ctx g x y Hl ltac:(simpl; lia) Hg) as (a2 & c2 & Hd2).
  exists a1, (_drawFromCache B a1 ctx i x y); split; [exact Hd1|].
  destruct (draw_cases B _ _ _ _ _ _ _ _ Hd2)
    as [(j & Hget & _) | [(_ & Hcc & _) | [(_ & _ & _ & Hlt & _) |
        (_ & _ & _ & _ & e & r & a3 & Hm & Hd3 & Ha2 & _)]]].
  { congruence. }
  { destruct Hg as [Hcc' _]; congruence. }
  { apply Permutation_length in Hperm; unfold a1, map_size in Hlt, Hfull; simpl in Hlt.
    rewrite length_app in Hlt; rewrite Hperm, length_app in Hfull; simpl in Hlt, Hfull; lia. }
  destruct (drawToCache_frame B _ _ _ _ Hd3) as (_ & Hcm & _); simpl in Hcm.
  split.
  - intros Hc2.
    destruct (map_delete (getGlyphCacheKey gK) (_cacheMap a)) as [|[ek ev] r'] eqn:Hdel.
    { apply Permutation_length in Hperm; simpl in Hperm.
      unfold map_size in Hfull; rewrite Hperm in Hfull; simpl in Hfull; lia. }
    exists ek, (map fst r').
    split; [rewrite <- Hkeys; reflexivity|].
    unfold a1 in Hm; simpl in Hm; injection Hm as <- <-.
    simpl in Hndd; apply NoDup_cons_iff in Hndd; destruct Hndd as [Hek Hndr].
    simpl in HKd.
    assert (HekK : ek <> getGlyphCacheKey gK) by (intros E; apply HKd; left; exact E).
    assert (Hin : In (ek, ev) (_cacheMap a))
      by (apply (Permutation_in _ (Permutation_sym Hperm)); left; reflexivity).
    assert (Hekg : ek <> getGlyphCacheKey g).
    { intros E; apply map_get_none in Hnew; apply Hnew; rewrite <- E.
      apply (in_map fst) in Hin; exact Hin. }
    assert (Hkg : ~ In (getGlyphCacheKey g) (map fst (r' ++ [(getGlyphCacheKey gK, i)]))).
    { apply map_get_none; unfold a1 in Hnew1; simpl in Hnew1.
      destruct (jsstring_eqb (getGlyphCacheKey g) ek); [discriminate | exact Hnew1]. }
    exists a2, c2; split; [exact Hd2|].
    rewrite Ha2; simpl _cacheMap; rewrite Hcm, map_set_new by exact Hkg.
    split; [rewrite !map_app; simpl; rewrite <- app_assoc; reflexivity|].
    rewrite (in_map_get _ _ _ Hnd Hin).
    rewrite !map_get_app.
    assert (HKr : map_get (getGlyphCacheKey gK) r' = None)
      by (apply map_get_none; intros H; apply HKd; right; exact H).
    assert (Hekr : map_get ek r' = None) by (apply map_get_none; exact Hek).
    assert (Hgr : map_get (getGlyphCacheKey g) r' = None)
      by (apply map_get_none; intros H; apply Hkg; rewrite map_app; apply in_or_app; left; exact H).
    rewrite HKr, Hekr, Hgr; simpl; rewrite jsstring_eqb_refl.
    destruct (jsstring_eqb ek (getGlyphCacheKey gK)) eqn:E1;
      [apply jsstring_eqb_eq in E1; contradiction|].
    destruct (jsstring_eqb ek (getGlyphCacheKey g)) eqn:E2;
      [apply jsstring_eqb_eq in E2; contradiction|].
    destruct (jsstring_eqb (getGlyphCacheKey g) (getGlyphCacheKey gK)) eqn:E3;
      [apply jsstring_eqb_eq in E3; contradiction|].
    rewrite jsstring_eqb_refl; auto.
  - intros Hc.
    destruct (map_delete (getGlyphCacheKey gK) (_cacheMap a)) as [|d r'] eqn:Hdel.
    2: { apply Permutation_length in Hperm; simpl in Hperm.
         unfold map_size in Hfull; rewrite Hperm, length_app in Hfull; simpl in Hfull; lia. }
    unfold a1 in Hm; simpl in Hm; injection Hm as <- <-.
    exists a2, c2; split; [exact Hd2|].
    rewrite Ha2; simpl _cacheMap; rewrite Hcm; simpl.
    rewrite jsstring_eqb_refl.
    destruct (jsstring_eqb (getGlyphCacheKey gK) (getGlyphCacheKey g)) eqn:E;
      [apply jsstring_eqb_eq in E; congruence|].
    auto.
Qed.

(** C5: in a reachable state, [_drawToCache] of a glyph with valid colour
    references into slot [i] of the atlas fills the scratch cell, at full
    opacity, with the background colour of the three-way rule (the fill
    keeps the font and baseline the scratch context has, which a fill does
    not use); then draws the character at the cell origin with the
    foreground colour of the symmetric rule, the (bold) font, the top
    baseline and [DIM_OPACITY] when dim; and restores the scratch context
    and its save stack.  The atlas then holds, inside the slot's cell, the
    scratch pixels with every pixel equal to the fill colour made
    transparent, and is unchanged elsewhere; the cache map is untouched. *)
Theorem C5_rasterization_pipeline (B : Browser) a g i :
  reachable B a -> valid_color_ref (bg g) -> valid_color_ref (fg g) -> 0 <= i < _capacity a ->
  let cfg := _config a in
  let bgc := effective_bg (colors cfg) (bg g) in
  let fgc := effective_fg (colors cfg) (fg g) in
  let x := fst (_toCoordinates a i) in
  let y := snd (_toCoordinates a i) in
  exists a',
    _drawToCache B a g i = Ok a' /\
    cv_pixels (_tmpCanvas a') =
      paint_text B (text_state B cfg g fgc) (char g) 0 0
        (paint_rect B (fill_state (cv_state (_tmpCanvas a)) bgc) 0 0
           (scaledCharWidth cfg) (scaledCharHeight cfg) (cv_pixels (_tmpCanvas a))) /\
    cv_state (_tmpCanvas a') = cv_state (_tmpCanvas a) /\
    cv_stack (_tmpCanvas a') = cv_stack (_tmpCanvas a) /\
    (forall px py, cv_pixels (_cacheCanvas a') px py =
       if in_rect x y (scaledCharWidth cfg) (scaledCharHeight cfg) px py
       then clear_pixel (cv_pixels (_tmpCanvas a') (px - x) (py - y)) bgc
       else cv_pixels (_cacheCanvas a) px py) /\
    _cacheMap a' = _cacheMap a.
Proof.
  intros R Hb Hf Hi; cbv zeta.
  pose proof (reachable_winv B a R) as W.
  destruct W as [[Hcw [Hch Hl]] Hw Hh Hcap _ _ _ Halpha _ _ [Htw Hth] [Hcw' Hch']].
  rewrite drawToCache_eq; cbv zeta; rewrite (resolve_bg _ _ Hl Hb); cbn [bind].
  rewrite (resolve_fg _ _ Hl Hf); cbn [bind].
  assert (Hb1 := slot_in_bounds TEXTURE_WIDTH TEXTURE_HEIGHT _ _ Hcw Hch
                   ltac:(unfold TEXTURE_WIDTH; lia) ltac:(unfold TEXTURE_HEIGHT; lia) i
                   ltac:(rewrite <- Hw, <- Hh, <- Hcap; exact Hi)).
  unfold _toCoordinates in *; rewrite <- Hw in Hb1.
  eexists; split; [reflexivity|].
  destruct (bold g) eqn:Ebold, (dim g) eqn:Edim; simpl; rewrite ?Halpha;
    (split; [unfold text_state, fill_state; rewrite Ebold, Edim; reflexivity|]);
    (split; [reflexivity|]); (split; [reflexivity|]); (split; [|reflexivity]); intros px py;
    (destruct (in_rect _ _ (scaledCharWidth (_config a)) (scaledCharHeight (_config a)) px py) eqn:E;
     simpl; [|reflexivity]);
    apply in_rect_true in E;
    (rewrite (proj2 (in_rect_true 0 0 (cv_width (_cacheCanvas a)) (cv_height (_cacheCanvas a)) px py))
       by (rewrite Hcw', Hch'; lia));
    (rewrite (proj2 (in_rect_true 0 0 (cv_width (_tmpCanvas a)) (cv_height (_tmpCanvas a)) _ _))
       by (rewrite Htw, Hth; lia));
    unfold clear_pixel; rewrite ?Z.add_0_l; reflexivity.
Qed.

(** C8 (code bug): in a reachable state, a draw whose key is resident is a
    hit: it returns true, copies the key's cell to the destination, touches
    neither canvas (no rasterisation, no write to the atlas), keeps every
    key-to-slot binding and only moves the key to the most recent end.  But
    repeated hits on a glyph whose key is never evicted in between need not
    give the same output: on the 4-slot atlas, after a hit on "D" (slot 3),
    a draw with background id -5 evicts "A" and throws, and "F" then takes
    slot 3, which "D" still holds; "D" stays resident all along, yet the
    next hit on "D" copies the image of "F". *)
Theorem C8_hit_after_caught_throw_shows_other_glyph :
  (forall (B : Browser) a0 ctx g x y i,
     reachable B a0 ->
     map_get (getGlyphCacheKey g) (_cacheMap a0) = Some i ->
     exists a',
       draw B a0 ctx g x y = Ok (true, a', _drawFromCache B a0 ctx i x y) /\
       _cacheCanvas a' = _cacheCanvas a0 /\ _tmpCanvas a' = _tmpCanvas a0 /\
       (forall k, map_get k (_cacheMap a') = map_get k (_cacheMap a0)) /\
       map fst (_cacheMap a') =
         remove (list_eq_dec Z.eq_dec) (getGlyphCacheKey g) (map fst (_cacheMap a0)) ++
         [getGlyphCacheKey g]) /\
  (let gD := glyph_of "D" in
   let a1 := snd (draw_st B0 full4 canvas0 gD 0 0) in
   let a3 := run_st B0 a1 [(canvas0, bad_bg_glyph "E", 0, 0); (canvas0, glyph_of "F", 0, 0)] in
   reachable B0 a1 /\
   keeps B0 (getGlyphCacheKey gD) a1 a3 /\
   map_get (getGlyphCacheKey gD) (_cacheMap a1) = Some 3 /\
   map_get (getGlyphCacheKey gD) (_cacheMap a3) = Some 3 /\
   map_get (getGlyphCacheKey (glyph_of "F")) (_cacheMap a3) = Some 3 /\
   (exists out1, draw B0 full4 canvas0 gD 0 0 = Ok (true, a1, out1) /\
                 pr (cv_pixels out1 0 0) = 68) /\
   (exists a4 out2, draw B0 a3 canvas0 gD 0 0 = Ok (true, a4, out2) /\
                    pr (cv_pixels out2 0 0) = 70)).
Proof.
  split.
  - intros B a0 ctx g x y i R Hi; pose proof (reachable_winv B a0 R) as W.
    exists (with_cacheMap a0 (map_set (getGlyphCacheKey g) i
                               (map_delete (getGlyphCacheKey g) (_cacheMap a0)))).
    split; [rewrite draw_eq; cbv zeta; rewrite Hi; reflexivity|].
    split; [reflexivity|]; split; [reflexivity|]; simpl; split.
    + intros k; destruct (list_eq_dec Z.eq_dec k (getGlyphCacheKey g)) as [->|Hne].
      * rewrite map_get_set_same; symmetry; exact Hi.
      * rewrite map_get_set_other, map_get_delete_other by exact Hne; reflexivity.
    + rewrite map_move_to_end by (exact (winv_keys _ W) || exact Hi).
      rewrite map_app, map_delete_keys by exact (winv_keys _ W); reflexivity.
  - cbv zeta; cbn [run_st].
    split; [apply reachable_call, full4_reachable|].
    split.
    { apply (keeps_step B0 _ _ canvas0 (bad_bg_glyph "E") 0 0);
        [vm_compute; intros H; discriminate H|].
      apply (keeps_step B0 _ _ canvas0 (glyph_of "F") 0 0);
        [vm_compute; intros H; discriminate H|].
      apply keeps_refl. }
    split; [vm_compute; reflexivity|].
    split; [vm_compute; reflexivity|].
    split; [vm_compute; reflexivity|].
    split.
    + destruct (hit_output (draw_st B0 full4 canvas0 (glyph_of "D") 0 0)) as [c|] eqn:E.
      * exists c; split; [exact (draw_of_hit B0 _ _ _ _ _ _ E)|].
        pose proof (f_equal (option_map (fun c => pr (cv_pixels c 0 0))) E) as P.
        vm_compute in P; injection P as P; symmetry; exact P.
      * pose proof (f_equal (option_map (fun c => pr (cv_pixels c 0 0))) E) as P.
        vm_compute in P; discriminate P.
    + set (a1 := snd (draw_st B0 full4 canvas0 (glyph_of "D") 0 0)).
      set (a3 := snd (draw_st B0 (snd (draw_st B0 a1 canvas0 (bad_bg_glyph "E") 0 0))
                        canvas0 (glyph_of "F") 0 0)).
      destruct (hit_output (draw_st B0 a3 canvas0 (glyph_of "D") 0 0)) as [c|] eqn:E.
      * exists (snd (draw_st B0 a3 canvas0 (glyph_of "D") 0 0)), c;
          split; [exact (draw_of_hit B0 _ _ _ _ _ _ E)|].
        pose proof (f_equal (option_map (fun c => pr (cv_pixels c 0 0))) E) as P.
        subst a3 a1; vm_compute in P; injection P as P; symmetry; exact P.
      * pose proof (f_equal (option_map (fun c => pr (cv_pixels c 0 0))) E) as P.
        subst a3 a1; vm_compute in P; discriminate P.
Qed.

(** C9 (code bug): with cells wider than the texture the capacity is 0, and
    the first draw of any cacheable glyph takes the eviction branch on the
    empty map: [mapShift] returns [undefined] and reading its [[1]] throws. *)
Theorem C9_zero_capacity_throws (B : Browser) cfg ctx g x y :
  TEXTURE_WIDTH < scaledCharWidth cfg -> _canCache g = true ->
  _capacity (construct cfg) = 0 /\ draw B (construct cfg) ctx g x y = TypeError.
Proof.
  intros Hw Hc.
  assert (Hz : _capacity (construct cfg) = 0).
  { simpl; rewrite (Z.div_small TEXTURE_WIDTH) by (unfold TEXTURE_WIDTH in *; lia).
    reflexivity. }
  split; [exact Hz|].
  rewrite draw_eq; cbv zeta; simpl _cacheMap; simpl map_get; rewrite Hc, Hz; reflexivity.
Qed.

(** C10 (amended): the atlas texture is not part of the configuration: every
    atlas, whatever its configuration, is built on the module constants
    [TEXTURE_WIDTH] x [TEXTURE_HEIGHT] = 1024 x 1024, and its capacity is
    floor(1024 / cell width) * floor(1024 / cell height); only the cell size
    changes it. *)
Theorem C10_texture_is_module_constant_amended cfg :
  TEXTURE_WIDTH = 1024 /\ TEXTURE_HEIGHT = 1024 /\
  cv_width (_cacheCanvas (construct cfg)) = TEXTURE_WIDTH /\
  cv_height (_cacheCanvas (construct cfg)) = TEXTURE_HEIGHT /\
  _capacity (construct cfg) =
    (TEXTURE_WIDTH / scaledCharWidth cfg) * (TEXTURE_HEIGHT / scaledCharHeight cfg).
Proof. repeat split. Qed.

End Claims.

(** * Counterexamples *)

(** C2: with capacity 1 (cells of 600 x 600 on the 1024 x 1024 texture),
    after "A" is drawn the map holds exactly [capacity] keys; drawing "A"
    again is a hit; drawing the new cacheable "B" then evicts "A", the key
    that was just hit. *)
Lemma C2_capacity_one_evicts_hit_key :
  _capacity (construct (cfg_cells 600 600)) = 1 /\
  cache_after B0 (construct (cfg_cells 600 600)) [(canvas0, glyph_of "A"%string, 0, 0)] =
    Ok [(getGlyphCacheKey (glyph_of "A"%string), 0)] /\
  cache_after B0 (construct (cfg_cells 600 600))
    [(canvas0, glyph_of "A"%string, 0, 0); (canvas0, glyph_of "A"%string, 0, 0)] =
    Ok [(getGlyphCacheKey (glyph_of "A"%string), 0)] /\
  _canCache (glyph_of "B"%string) = true /\
  cache_after B0 (construct (cfg_cells 600 600))
    [(canvas0, glyph_of "A"%string, 0, 0); (canvas0, glyph_of "A"%string, 0, 0);
     (canvas0, glyph_of "B"%string, 0, 0)] =
    Ok [(getGlyphCacheKey (glyph_of "B"%string), 0)].
Proof. repeat split; vm_compute; reflexivity. Qed.

(** C10: a configuration meant for a small atlas still gets the full
    1024 x 1024 texture: with 16 x 16 cells the atlas has 4096 slots, and a
    cell size is the configuration's only say in it. *)
Lemma C10_small_atlas_not_configurable :
  cv_width (_cacheCanvas (construct (cfg_cells 16 16))) = 1024 /\
  cv_height (_cacheCanvas (construct (cfg_cells 16 16))) = 1024 /\
  _capacity (construct (cfg_cells 16 16)) = 4096.
Proof. repeat split; vm_compute; reflexivity. Qed.

(** * Witnesses: each theorem's hypotheses hold at a concrete input *)

(** C1 at the 4-slot atlas: four distinct glyphs, then a fifth. *)
Lemma C1_witness :
  valid_config (cfg_cells 512 512) /\ 1 <= _capacity (construct (cfg_cells 512 512)) /\
  Forall (fun '(_, g, _, _) => drawable g) (calls_of ["A"; "B"; "C"; "D"]%string) /\
  ((Z.of_nat (length (admission_order (trace (calls_of ["A"; "B"; "C"; "D"]%string)))) <=
      _capacity (construct (cfg_cells 512 512)) ->
    exists a, run B0 (construct (cfg_cells 512 512)) (calls_of ["A"; "B"; "C"; "D"]%string) = Ok a /\
      forall k, map_get k (_cacheMap a) =
                index_of k (admission_order (trace (calls_of ["A"; "B"; "C"; "D"]%string)))) /\
   (Z.of_nat (length (admission_order (trace (calls_of ["A"; "B"; "C"; "D"]%string)))) =
      _capacity (construct (cfg_cells 512 512)) ->
    drawable (glyph_of "E"%string) ->
    ~ In (getGlyphCacheKey (glyph_of "E"%string)) (trace (calls_of ["A"; "B"; "C"; "D"]%string)) ->
    exists a a' ctx' p e s,
      run B0 (construct (cfg_cells 512 512)) (calls_of ["A"; "B"; "C"; "D"]%string) = Ok a /\
      draw B0 a canvas0 (glyph_of "E"%string) 0 0 = Ok (true, a', ctx') /\
      trace (calls_of ["A"; "B"; "C"; "D"]%string) = p ++ e :: s /\ ~ In e s /\
      (forall k, In k (trace (calls_of ["A"; "B"; "C"; "D"]%string)) -> k <> e -> In k s) /\
      map fst (_cacheMap a') =
        remove (list_eq_dec Z.eq_dec) e (map fst (_cacheMap a)) ++
        [getGlyphCacheKey (glyph_of "E"%string)] /\
      map_get (getGlyphCacheKey (glyph_of "E"%string)) (_cacheMap a') = map_get e (_cacheMap a) /\
      map_get e (_cacheMap a') = None)).
Proof.
  assert (Hv : valid_config (cfg_cells 512 512)) by (apply valid_cfg_cells; lia).
  assert (Hc : 1 <= _capacity (construct (cfg_cells 512 512))) by (vm_compute; intros H; discriminate H).
  assert (Hall : Forall (fun '(_, g, _, _) => drawable g) (calls_of ["A"; "B"; "C"; "D"]%string))
    by (cbn [calls_of map]; repeat (apply Forall_cons; [drawable_tac|]); apply Forall_nil).
  split; [exact Hv|]; split; [exact Hc|]; split; [exact Hall|].
  exact (C1_lru_admission_and_eviction B0 _ _ canvas0 (glyph_of "E"%string) 0 0 Hv Hc Hall).
Defined.

(** C2 (amended) at the full 4-slot atlas: a hit on "A", then "E". *)
Lemma C2_witness :
  reachable B0 full4 /\ 1 <= _capacity full4 /\ map_size (_cacheMap full4) = _capacity full4 /\
  map_get (getGlyphCacheKey (glyph_of "A"%string)) (_cacheMap full4) <> None /\
  drawable (glyph_of "E"%string) /\
  map_get (getGlyphCacheKey (glyph_of "E"%string)) (_cacheMap full4) = None /\
  exists a1 c1,
    draw B0 full4 canvas0 (glyph_of "A"%string) 0 0 = Ok (true, a1, c1) /\
    (2 <= _capacity full4 ->
     exists e rest,
     remove (list_eq_dec Z.eq_dec) (getGlyphCacheKey (glyph_of "A"%string))
       (map fst (_cacheMap full4)) = e :: rest /\
     exists a2 c2,
     draw B0 a1 canvas0 (glyph_of "E"%string) 0 0 = Ok (true, a2, c2) /\
     map fst (_cacheMap a2) =
       rest ++ [getGlyphCacheKey (glyph_of "A"%string); getGlyphCacheKey (glyph_of "E"%string)] /\
     map_get (getGlyphCacheKey (glyph_of "A"%string)) (_cacheMap a2) =
       map_get (getGlyphCacheKey (glyph_of "A"%string)) (_cacheMap full4) /\
     map_get e (_cacheMap a2) = None /\
     map_get (getGlyphCacheKey (glyph_of "E"%string)) (_cacheMap a2) = map_get e (_cacheMap full4)) /\
    (_capacity full4 = 1 ->
     exists a2 c2,
     draw B0 a1 canvas0 (glyph_of "E"%string) 0 0 = Ok (true, a2, c2) /\
     map fst (_cacheMap a2) = [getGlyphCacheKey (glyph_of "E"%string)] /\
     map_get (getGlyphCacheKey (glyph_of "A"%string)) (_cacheMap a2) = None /\
     map_get (getGlyphCacheKey (glyph_of "E"%string)) (_cacheMap a2) =
       map_get (getGlyphCacheKey (glyph_of "A"%string)) (_cacheMap full4)).
Proof.
  assert (H1 : 1 <= _capacity full4) by (vm_compute; intros H; discriminate H).
  assert (Hf : map_size (_cacheMap full4) = _capacity full4) by (vm_compute; reflexivity).
  assert (HK : map_get (getGlyphCacheKey (glyph_of "A"%string)) (_cacheMap full4) <> None)
    by (vm_compute; intros H; discriminate H).
  assert (Hg : drawable (glyph_of "E"%string)) by drawable_tac.
  assert (Hn : map_get (getGlyphCacheKey (glyph_of "E"%string)) (_cacheMap full4) = None)
    by (vm_compute; reflexivity).
  split; [exact full4_reachable|]; split; [exact H1|]; split; [exact Hf|]; split; [exact HK|].
  split; [exact Hg|]; split; [exact Hn|].
  exact (C2_hit_then_admit_amended B0 full4 canvas0 _ _ 0 0 full4_reachable H1 Hf HK Hg Hn).
Defined.

(** C5 at the full 4-slot atlas: "E" into slot 3. *)
Lemma C5_witness :
  reachable B0 full4 /\ valid_color_ref (bg (glyph_of "E"%string)) /\
  valid_color_ref (fg (glyph_of "E"%string)) /\ 0 <= 3 < _capacity full4 /\
  exists a',
    _drawToCache B0 full4 (glyph_of "E"%string) 3 = Ok a' /\
    cv_pixels (_tmpCanvas a') =
      paint_text B0 (text_state B0 (_config full4) (glyph_of "E"%string)
                       (effective_fg (colors (_config full4)) (fg (glyph_of "E"%string))))
        (char (glyph_of "E"%string)) 0 0
        (paint_rect B0 (fill_state (cv_state (_tmpCanvas full4))
                          (effective_bg (colors (_config full4)) (bg (glyph_of "E"%string))))
           0 0 (scaledCharWidth (_config full4)) (scaledCharHeight (_config full4))
           (cv_pixels (_tmpCanvas full4))) /\
    cv_state (_tmpCanvas a') = cv_state (_tmpCanvas full4) /\
    cv_stack (_tmpCanvas a') = cv_stack (_tmpCanvas full4) /\
    (forall px py, cv_pixels (_cacheCanvas a') px py =
       if in_rect (fst (_toCoordinates full4 3)) (snd (_toCoordinates full4 3))
            (scaledCharWidth (_config full4)) (scaledCharHeight (_config full4)) px py
       then clear_pixel (cv_pixels (_tmpCanvas a') (px - fst (_toCoordinates full4 3))
                                                   (py - snd (_toCoordinates full4 3)))
              (effective_bg (colors (_config full4)) (bg (glyph_of "E"%string)))
       else cv_pixels (_cacheCanvas full4) px py) /\
    _cacheMap a' = _cacheMap full4.
Proof.
  assert (Hb : valid_color_ref (bg (glyph_of "E"%string))) by (right; vm_compute; intros H; discriminate H).
  assert (Hf : valid_color_ref (fg (glyph_of "E"%string))) by (right; vm_compute; intros H; discriminate H).
  assert (Hi : 0 <= 3 < _capacity full4) by (vm_compute; split; [intros H; discriminate H | reflexivity]).
  split; [exact full4_reachable|]; split; [exact Hb|]; split; [exact Hf|]; split; [exact Hi|].
  exact (C5_rasterization_pipeline B0 full4 (glyph_of "E"%string) 3 full4_reachable Hb Hf Hi).
Defined.

(** C7 at 16 x 16 cells: slots 0 and 65. *)
Lemma C7_witness :
  0 < scaledCharWidth (cfg_cells 16 16) /\ 0 < scaledCharHeight (cfg_cells 16 16) /\
  0 <= 0 < _capacity (construct (cfg_cells 16 16)) /\
  0 <= 65 < _capacity (construct (cfg_cells 16 16)) /\
  (_toCoordinates (construct (cfg_cells 16 16)) 0 = _toCoordinates (construct (cfg_cells 16 16)) 65 ->
   0 = 65) /\
  (0 <= fst (_toCoordinates (construct (cfg_cells 16 16)) 0) /\
   fst (_toCoordinates (construct (cfg_cells 16 16)) 0) + 16 <= TEXTURE_WIDTH /\
   0 <= snd (_toCoordinates (construct (cfg_cells 16 16)) 0) /\
   snd (_toCoordinates (construct (cfg_cells 16 16)) 0) + 16 <= TEXTURE_HEIGHT) /\
  (0 <> 65 -> forall px py,
     in_rect (fst (_toCoordinates (construct (cfg_cells 16 16)) 0))
       (snd (_toCoordinates (construct (cfg_cells 16 16)) 0)) 16 16 px py &&
     in_rect (fst (_toCoordinates (construct (cfg_cells 16 16)) 65))
       (snd (_toCoordinates (construct (cfg_cells 16 16)) 65)) 16 16 px py = false).
Proof.
  assert (Hw : 0 < scaledCharWidth (cfg_cells 16 16)) by (vm_compute; reflexivity).
  assert (Hh : 0 < scaledCharHeight (cfg_cells 16 16)) by (vm_compute; reflexivity).
  assert (H1 : 0 <= 0 < _capacity (construct (cfg_cells 16 16)))
    by (vm_compute; split; [intros H; discriminate H | reflexivity]).
  assert (H2 : 0 <= 65 < _capacity (construct (cfg_cells 16 16)))
    by (vm_compute; split; [intros H; discriminate H | reflexivity]).
  split; [exact Hw|]; split; [exact Hh|]; split; [exact H1|]; split; [exact H2|].
  exact (C7_slot_geometry (cfg_cells 16 16) 0 65 Hw Hh H1 H2).
Defined.

(** C9: cells 2048 wide; the first draw of "A" throws. *)
Lemma C9_witness :
  TEXTURE_WIDTH < scaledCharWidth (cfg_cells 2048 16) /\ _canCache (glyph_of "A"%string) = true /\
  _capacity (construct (cfg_cells 2048 16)) = 0 /\
  draw B0 (construct (cfg_cells 2048 16)) canvas0 (glyph_of "A"%string) 0 0 = TypeError.
Proof.
  assert (Hw : TEXTURE_WIDTH < scaledCharWidth (cfg_cells 2048 16)) by (vm_compute; reflexivity).
  assert (Hc : _canCache (glyph_of "A"%string) = true) by (vm_compute; reflexivity).
  split; [exact Hw|]; split; [exact Hc|].
  exact (C9_zero_capacity_throws B0 (cfg_cells 2048 16) canvas0 _ 0 0 Hw Hc).
Defined.

(** * Further properties of the atlas *)

(** ** Helpers *)

Section MoreMaps.

Lemma map_delete_last k v L : ~ In k (map fst L) -> map_delete k (L ++ [(k, v)]) = L.
Proof.
  induction L as [|[k' v'] r IH]; simpl; intros Hn.
  - rewrite jsstring_eqb_refl; reflexivity.
  - destruct (jsstring_eqb k k') eqn:E; [apply jsstring_eqb_eq in E; subst; tauto|].
    rewrite IH by tauto; reflexivity.
Qed.

Lemma map_get_last k v L : ~ In k (map fst L) -> map_get k (L ++ [(k, v)]) = Some v.
Proof.
  intros Hn; rewrite map_get_app; apply map_get_none in Hn; rewrite Hn; simpl.
  rewrite jsstring_eqb_refl; reflexivity.
Qed.

Lemma with_cacheMap_same a : with_cacheMap a (_cacheMap a) = a.
Proof. destruct a; reflexivity. Qed.

End MoreMaps.

(** A colour reference is the sentinel or a non-negative id, decidably. *)
Lemma valid_color_ref_dec z : {valid_color_ref z} + {~ valid_color_ref z}.
Proof.
  unfold valid_color_ref; destruct (Z.eq_dec z INVERTED_DEFAULT_COLOR) as [E|E];
    [left; left; exact E|].
  destruct (Z_le_dec 0 z) as [L|L]; [left; right; exact L | right; intros [H|H]; contradiction].
Qed.

(** Any other colour id is negative and reads [ansi[id]], which is [undefined]. *)
Lemma invalid_ref_throws cs z (c1 c2 : IColor) : ~ valid_color_ref z ->
  (if z =? INVERTED_DEFAULT_COLOR then Ok c1
   else if z <? 256 then defined (ansi_at cs z) else Ok c2) = TypeError.
Proof.
  unfold valid_color_ref; intros Hz.
  destruct (z =? INVERTED_DEFAULT_COLOR) eqn:E1; [apply Z.eqb_eq in E1; tauto|].
  assert (Hn : z < 0) by (destruct (Z_lt_le_dec z 0); [assumption | exfalso; apply Hz; right; assumption]).
  rewrite (proj2 (Z.ltb_lt z 256)) by lia.
  unfold ansi_at; rewrite (proj2 (Z.ltb_lt z 0)) by exact Hn; reflexivity.
Qed.

Section Throws.
Context (B : Browser).

Lemma drawToCache_throws a g i : ~ valid_color_ref (bg g) \/ ~ valid_color_ref (fg g) ->
  _drawToCache B a g i = TypeError.
Proof.
  intros Hbad; rewrite drawToCache_eq; cbv zeta.
  destruct (valid_color_ref_dec (bg g)) as [Hb|Hb].
  - destruct Hbad as [Hbad|Hf]; [contradiction|].
    match goal with |- bind ?r _ = _ => destruct r end; cbn [bind]; [|reflexivity].
    rewrite (invalid_ref_throws _ _ _ _ Hf); reflexivity.
  - rewrite (invalid_ref_throws _ _ _ _ Hb); reflexivity.
Qed.

Lemma drawToCache_valid a g i a' : _drawToCache B a g i = Ok a' ->
  valid_color_ref (bg g) /\ valid_color_ref (fg g).
Proof.
  intros H; destruct (valid_color_ref_dec (bg g)) as [Hb|Hb];
    [destruct (valid_color_ref_dec (fg g)) as [Hf|Hf]; [auto|] |];
    rewrite drawToCache_throws in H by auto; discriminate.
Qed.

Lemma capacity_nonneg a : inv a -> 0 <= _capacity a.
Proof.
  intros I; rewrite (inv_capacity _ I), (inv_width _ I), (inv_height _ I).
  pose proof (inv_cfg _ I) as (? & ? & _).
  apply Z.mul_nonneg_nonneg; apply Z.div_pos; unfold TEXTURE_WIDTH, TEXTURE_HEIGHT; lia.
Qed.

End Throws.

Lemma grid_pos_iff c T : 0 < c -> 0 <= T -> (1 <= T / c <-> c <= T).
Proof.
  intros Hc HT; split; intros H.
  - destruct (Z_le_gt_dec c T) as [|Hg]; [assumption|].
    rewrite Z.div_small in H by lia; lia.
  - apply Z.div_le_lower_bound; lia.
Qed.

Lemma mul_pos_iff p q : 0 <= p -> 0 <= q -> (1 <= p * q <-> 1 <= p /\ 1 <= q).
Proof.
  intros Hp Hq; split.
  - intros H; destruct (Z.eq_dec p 0) as [->|Hp0]; [lia|].
    destruct (Z.eq_dec q 0) as [->|Hq0]; [lia|]; lia.
  - intros [H1 H2]; nia.
Qed.

(** ** What a draw call does to the map *)

Section MapUpdate.
Context (B : Browser).

(** After a draw that returned true, the glyph's key is the last entry. *)
Lemma draw_key_last a ctx g x y a1 c1 : NoDup (map fst (_cacheMap a)) -> draw B a ctx g x y = Ok (true, a1, c1) ->
  exists L i, _cacheMap a1 = L ++ [(getGlyphCacheKey g, i)] /\
              ~ In (getGlyphCacheKey g) (map fst L).
Proof.
  intros I H; destruct (draw_cases B _ _ _ _ _ _ _ _ H)
    as [(i & Hget & _ & -> & _) | [(_ & _ & Hb & _) |
        [(Hget & _ & _ & _ & a2 & Hd & -> & _) |
         (Hget & _ & _ & _ & e & r & a2 & Hm & Hd & -> & _)]]]; [| discriminate | |].
  - exists (map_delete (getGlyphCacheKey g) (_cacheMap a)), i; simpl; split.
    + apply map_move_to_end; [exact I | exact Hget].
    + apply map_delete_not_in, I.
  - destruct (drawToCache_frame B _ _ _ _ Hd) as (_ & Hcm & _); simpl in Hcm.
    apply map_get_none in Hget.
    exists (_cacheMap a), (map_size (_cacheMap a)); simpl; rewrite Hcm.
    split; [apply map_set_new; exact Hget | exact Hget].
  - destruct (drawToCache_frame B _ _ _ _ Hd) as (_ & Hcm & _); simpl in Hcm.
    apply map_get_none in Hget; rewrite Hm in Hget; simpl in Hget.
    exists r, (snd e); simpl; rewrite Hcm.
    split; [apply map_set_new|]; tauto.
Qed.

(** A key other than the drawn glyph's that is in the map after a draw was
    there before, with the same slot. *)
Lemma draw_get_other a ctx g x y b a' c' k i : NoDup (map fst (_cacheMap a)) -> draw B a ctx g x y = Ok (b, a', c') ->
  k <> getGlyphCacheKey g -> map_get k (_cacheMap a') = Some i -> map_get k (_cacheMap a) = Some i.
Proof.
  intros I H Hne Hk; destruct (draw_cases B _ _ _ _ _ _ _ _ H)
    as [(j & Hget & _ & -> & _) | [(_ & _ & _ & -> & _) |
        [(Hget & _ & _ & _ & a2 & Hd & -> & _) |
         (Hget & _ & _ & _ & e & r & a2 & Hm & Hd & -> & _)]]]; simpl in Hk.
  - rewrite map_get_set_other, map_get_delete_other in Hk by exact Hne; exact Hk.
  - exact Hk.
  - destruct (drawToCache_frame B _ _ _ _ Hd) as (_ & Hcm & _); simpl in Hcm.
    rewrite map_get_set_other, Hcm in Hk by exact Hne; exact Hk.
  - destruct (drawToCache_frame B _ _ _ _ Hd) as (_ & Hcm & _); simpl in Hcm.
    rewrite map_get_set_other, Hcm in Hk by exact Hne.
    pose proof I as Hnd; rewrite Hm in Hnd |- *; simpl in Hnd.
    apply NoDup_cons_iff in Hnd; destruct Hnd as [Hnot _].
    destruct e as [ek ev]; simpl in *.
    destruct (jsstring_eqb k ek) eqn:E; [|exact Hk].
    apply jsstring_eqb_eq in E; subst; exfalso; apply Hnot.
    apply map_get_in_keys in Hk; exact Hk.
Qed.

End MapUpdate.

(** ** The content of the cache *)

Section Content.
Context (B : Browser).

(** With the browser's fill covering the cell and its text compositing pixel
    by pixel, [_drawToCache] leaves the glyph's image in the slot's cell,
    whatever the scratch canvas held before. *)
Lemma drawToCache_cell a m g i a1 : rect_covers B -> text_pointwise B ->
  inv a -> 0 <= i < _capacity a ->
  _drawToCache B (with_cacheMap a m) g i = Ok a1 -> cell_view a1 i = glyph_image B (_config a) g.
Proof.
  intros Hr Ht I Hi H.
  destruct (drawToCache_valid B _ _ _ _ H) as [Hb Hf].
  destruct I as [[Hcw [Hch Hl]] Hw Hh Hcap _ _ _ _ Hst Hstk [Htw Hth] [Hcw' Hch']].
  assert (Hb1 := slot_in_bounds TEXTURE_WIDTH TEXTURE_HEIGHT _ _ Hcw Hch
                   ltac:(unfold TEXTURE_WIDTH; lia) ltac:(unfold TEXTURE_HEIGHT; lia) i
                   ltac:(rewrite <- Hw, <- Hh, <- Hcap; exact Hi)).
  rewrite <- Hw in Hb1.
  rewrite drawToCache_eq in H; cbn [with_cacheMap _config _tmpCanvas _cacheCanvas] in H.
  rewrite (resolve_bg _ _ Hl Hb) in H; cbn [bind] in H.
  rewrite (resolve_fg _ _ Hl Hf) in H; cbn [bind] in H.
  unfold _toCoordinates in H; cbn [with_cacheMap _width _config] in H.
  injection H as <-.
  apply functional_extensionality; intros u; apply functional_extensionality; intros v.
  unfold cell_view, crop, glyph_image, _toCoordinates; cbn [with_canvases with_cacheMap _config _width _cacheCanvas fst snd].
  destruct (in_rect 0 0 (scaledCharWidth (_config a)) (scaledCharHeight (_config a)) u v) eqn:E;
    [|reflexivity].
  apply in_rect_true in E.
  set (cx := Z.rem i (_width a) * scaledCharWidth (_config a)) in *.
  set (cy := i / _width a * scaledCharHeight (_config a)) in *.
  unfold putImageData, set_pixels, getImageData; cbn [cv_pixels id_width id_height clearColor id_data].
  rewrite (proj2 (in_rect_true cx cy _ _ (cx + u) (cy + v))) by lia.
  rewrite (proj2 (in_rect_true 0 0 (cv_width (_cacheCanvas a)) (cv_height (_cacheCanvas a)) (cx + u) (cy + v)))
    by (rewrite Hcw', Hch'; lia).
  replace (cx + u - cx) with u by lia; replace (cy + v - cy) with v by lia.
  rewrite !Z.add_0_l.
  destruct (bold g) eqn:Ebold, (dim g) eqn:Edim; simpl; rewrite ?Hstk, ?Hst;
    (rewrite (proj2 (in_rect_true 0 0 (cv_width (_tmpCanvas a)) (cv_height (_tmpCanvas a)) u v))
       by (rewrite Htw, Hth; lia));
    unfold clear_pixel, text_state, fill_state; rewrite ?Ebold, ?Edim; simpl;
    (erewrite Ht; [reflexivity|]); apply Hr, in_rect_true; lia.
Qed.

End Content.

(** Two glyphs with the same key are the same glyph. *)
Lemma glyph_of_key g1 g2 : getGlyphCacheKey g1 = getGlyphCacheKey g2 -> g1 = g2.
Proof.
  unfold getGlyphCacheKey; intros H.
  apply split_at_sep in H; try apply number_to_js_no_sep; destruct H as [Hb H].
  simpl in H.
  apply split_at_sep in H; try apply number_to_js_no_sep; destruct H as [Hf H].
  injection H as Hbo Hdi Hch.
  apply number_to_js_inj in Hb, Hf; apply flag_inj in Hbo, Hdi.
  destruct g1, g2; simpl in *; subst; reflexivity.
Qed.

Section ContentInv.
Context (B : Browser).

Lemma draw_cache_ok a ctx g x y b a' c' : rect_covers B -> text_pointwise B ->
  inv a -> cache_ok B a -> draw B a ctx g x y = Ok (b, a', c') -> cache_ok B a'.
Proof.
  intros Hr Ht I C H k i Hk.
  destruct (draw_frame B _ _ _ _ _ _ _ _ H) as (Hcfg & _); rewrite Hcfg.
  destruct (list_eq_dec Z.eq_dec k (getGlyphCacheKey g)) as [->|Hne].
  2: { pose proof (draw_get_other B _ _ _ _ _ _ _ _ _ _ (inv_keys _ I) H Hne Hk) as Hk0.
       destruct (step_keeps B _ _ _ _ _ _ _ _ _ _ I H Hk0 ltac:(rewrite Hk; discriminate))
         as [_ Hv].
       rewrite Hv; exact (C k i Hk0). }
  pose proof I as [_ _ _ _ _ _ Hrange Hsize _ _ _ _]; rewrite Forall_forall in Hrange.
  destruct (draw_cases B _ _ _ _ _ _ _ _ H)
    as [(j & Hget & _ & -> & _) | [(_ & _ & _ & -> & _) |
        [(Hget & Hc & _ & Hlt & a1 & Hd & -> & _) |
         (Hget & Hc & _ & Hge & e & r & a1 & Hm & Hd & -> & _)]]].
  - simpl in Hk; rewrite map_get_set_same in Hk; injection Hk as <-.
    rewrite cell_view_with; exact (C _ _ Hget).
  - exact (C _ _ Hk).
  - simpl in Hk; rewrite map_get_set_same in Hk; injection Hk as <-.
    exists g; split; [reflexivity|]; split.
    + split; [exact Hc | exact (drawToCache_valid B _ _ _ _ Hd)].
    + rewrite cell_view_with.
      apply (drawToCache_cell B a (_cacheMap a) g (map_size (_cacheMap a)) a1 Hr Ht I); [|exact Hd].
      unfold map_size in *; lia.
  - simpl in Hk; rewrite map_get_set_same in Hk; injection Hk as <-.
    exists g; split; [reflexivity|]; split.
    + split; [exact Hc | exact (drawToCache_valid B _ _ _ _ Hd)].
    + rewrite cell_view_with.
      apply (drawToCache_cell B a r g (snd e) a1 Hr Ht I); [|exact Hd].
      assert (He : 0 <= snd e < map_size (_cacheMap a))
        by (apply Hrange; rewrite Hm; left; reflexivity).
      lia.
Qed.

Lemma reachable_cache_ok a : rect_covers B -> text_pointwise B -> reachable_no_throw B a ->
  cache_ok B a.
Proof.
  intros Hr Ht R; induction R as [cfg Hv | a ctx g x y b a' c' R IH Hd].
  - intros k i Hk; simpl in Hk; discriminate Hk.
  - exact (draw_cache_ok a ctx g x y b a' c' Hr Ht (reachable_no_throw_inv B a R) IH Hd).
Qed.

End ContentInv.

(** ** Properties of the source functions *)

(** X1: in a reachable state, [draw] throws exactly when the glyph's key is
    not in the map, [_canCache] accepts the glyph, and either the capacity is
    0 (so [mapShift] meets the empty map) or a colour id is neither the
    sentinel nor non-negative (so [ansi[id]] is [undefined]). *)
Theorem draw_throws_iff (B : Browser) a ctx g x y : reachable B a ->
  draw B a ctx g x y = TypeError <->
  map_get (getGlyphCacheKey g) (_cacheMap a) = None /\ _canCache g = true /\
  (_capacity a = 0 \/ ~ valid_color_ref (bg g) \/ ~ valid_color_ref (fg g)).
Proof.
  intros R; pose proof (reachable_winv B a R) as W.
  pose proof (reachable_capacity_nonneg B a R) as Hc0.
  split.
  - intros H.
    destruct (map_get (getGlyphCacheKey g) (_cacheMap a)) eqn:Hget.
    { rewrite draw_eq in H; cbv zeta in H; rewrite Hget in H; discriminate. }
    destruct (_canCache g) eqn:Hcc.
    2: { rewrite draw_eq in H; cbv zeta in H; rewrite Hget, Hcc in H; discriminate. }
    split; [reflexivity|]; split; [reflexivity|].
    destruct (Z.eq_dec (_capacity a) 0) as [|Hnz]; [left; assumption|right].
    destruct (valid_color_ref_dec (bg g)) as [Hb|Hb]; [|left; exact Hb].
    destruct (valid_color_ref_dec (fg g)) as [Hf|Hf]; [|right; exact Hf].
    exfalso.
    destruct (draw_drawable B a ctx g x y (proj2 (proj2 (winv_cfg _ W))) ltac:(lia)
                (conj Hcc (conj Hb Hf))) as (a' & c' & E).
    rewrite H in E; discriminate.
  - intros (Hget & Hcc & Hwhy); rewrite draw_eq; cbv zeta; rewrite Hget, Hcc.
    destruct Hwhy as [H0 | Hbad].
    + pose proof (winv_size _ W) as Hs; rewrite H0 in Hs |- *.
      destruct (_cacheMap a) as [|e r]; [reflexivity|].
      unfold map_size in Hs; simpl in Hs; lia.
    + destruct (map_size (_cacheMap a) <? _capacity a);
        [|destruct (_cacheMap a) as [|[ek ev] r]]; cbn [bind mapShift]; try reflexivity;
        rewrite drawToCache_throws by exact Hbad; reflexivity.
Qed.

(** X2: on a fresh atlas with positive cell sizes and a 256-colour palette,
    the first draw of a cacheable glyph with valid colour ids succeeds
    exactly when the cell fits in the 1024 x 1024 texture in both
    directions. *)
Theorem first_draw_succeeds_iff (B : Browser) cfg ctx g x y : valid_config cfg -> drawable g ->
  ((exists a' ctx', draw B (construct cfg) ctx g x y = Ok (true, a', ctx')) <->
   scaledCharWidth cfg <= TEXTURE_WIDTH /\ scaledCharHeight cfg <= TEXTURE_HEIGHT).
Proof.
  intros Hv Hg; pose proof Hv as (Hw & Hh & _).
  assert (Hcap : 1 <= _capacity (construct cfg) <->
                 scaledCharWidth cfg <= TEXTURE_WIDTH /\ scaledCharHeight cfg <= TEXTURE_HEIGHT).
  { cbn [construct _capacity].
    rewrite mul_pos_iff by (apply Z.div_pos; unfold TEXTURE_WIDTH, TEXTURE_HEIGHT; lia).
    rewrite !grid_pos_iff by (unfold TEXTURE_WIDTH, TEXTURE_HEIGHT; lia); tauto. }
  rewrite <- Hcap; split.
  - intros (a' & c' & Hd).
    destruct (Z_le_gt_dec 1 (_capacity (construct cfg))) as [|Hlt]; [assumption|exfalso].
    assert (Hz : _capacity (construct cfg) = 0)
      by (pose proof (capacity_nonneg _ (construct_inv cfg Hv)); lia).
    rewrite draw_eq in Hd; cbv zeta in Hd; simpl _cacheMap in Hd; simpl map_get in Hd.
    destruct Hg as [Hc _]; rewrite Hc, Hz in Hd; discriminate.
  - intros H1; exact (draw_drawable B (construct cfg) ctx g x y (proj2 (proj2 Hv)) H1 Hg).
Qed.

(** X3: in a state reached by draw calls none of which threw, the occupied
    slots are exactly 0, 1, ..., size - 1: the slot a fresh entry takes,
    [size], is then free.  (After a caught throw this fails: see C3.) *)
Theorem occupied_slots_are_prefix (B : Browser) a : reachable_no_throw B a ->
  forall v, In v (map snd (_cacheMap a)) <-> 0 <= v < map_size (_cacheMap a).
Proof.
  intros R; pose proof (reachable_no_throw_inv B a R) as I.
  pose proof (inv_range _ I) as F; rewrite Forall_forall in F.
  intros v; split; [apply F|]; intros Hv.
  set (l' := map Z.of_nat (seq 0 (length (_cacheMap a)))).
  assert (Hincl : incl l' (map snd (_cacheMap a))).
  { apply NoDup_length_incl; [exact (inv_vals _ I) | unfold l'; rewrite !length_map, length_seq; lia |].
    intros w Hw; apply F in Hw; unfold l', map_size in *; apply in_map_iff.
    exists (Z.to_nat w); split; [lia|]; apply in_seq; lia. }
  apply Hincl; unfold l'; apply in_map_iff; exists (Z.to_nat v); unfold map_size in Hv.
  split; [lia|]; apply in_seq; lia.
Qed.

(** X4: what one draw call, returning or throwing, does to the two canvas
    contexts in a reachable state.  Afterwards the scratch context's
    [globalAlpha] is 1, the atlas context is the default one with an empty
    save stack, and both canvases keep their sizes.  A call that returns
    leaves the scratch context and its save stack as they were.  A call
    that throws with a capacity of at least 1 has thrown inside
    [_drawToCache] after [save()] and before [restore()]: the scratch save
    stack grows by one entry.  A call that throws with capacity 0 changes
    nothing. *)
Theorem scratch_context_after_call (B : Browser) a ctx g x y : reachable B a ->
  let r := draw_st B a ctx g x y in
  let a' := snd r in
  globalAlpha (cv_state (_tmpCanvas a')) = 1%Q /\
  cv_state (_cacheCanvas a') = default_ctx_state /\ cv_stack (_cacheCanvas a') = [] /\
  (cv_width (_tmpCanvas a') = scaledCharWidth (_config a') /\
   cv_height (_tmpCanvas a') = scaledCharHeight (_config a')) /\
  (cv_width (_cacheCanvas a') = TEXTURE_WIDTH /\ cv_height (_cacheCanvas a') = TEXTURE_HEIGHT) /\
  ((exists b c, fst r = Ok (b, c)) ->
     cv_state (_tmpCanvas a') = cv_state (_tmpCanvas a) /\
     cv_stack (_tmpCanvas a') = cv_stack (_tmpCanvas a)) /\
  (fst r = TypeError -> 1 <= _capacity a ->
     cv_stack (_tmpCanvas a') = cv_state (_tmpCanvas a) :: cv_stack (_tmpCanvas a)) /\
  (fst r = TypeError -> _capacity a = 0 -> a' = a).
Proof.
  intros R; cbv zeta.
  pose proof (reachable_winv B a R) as W.
  pose proof (reachable_winv B _ (reachable_call B a ctx g x y R)) as W'.
  split; [exact (winv_alpha _ W')|]; split; [exact (winv_cache_state _ W')|].
  split; [exact (winv_cache_stack _ W')|].
  split; [exact (winv_tmp_dims _ W')|]; split; [exact (winv_cache_dims _ W')|].
  destruct (draw_st_cases B a ctx g x y)
    as [(i & _ & E) | [(_ & _ & E) | [(_ & _ & Hm & Hc & E) |
        (_ & _ & i & m' & Hcase & [(Ht & E) | (Ht & E)])]]]; rewrite E; cbn [fst snd].
  - split; [intros _; split; reflexivity|]; split; intros H; discriminate H.
  - split; [intros _; split; reflexivity|]; split; intros H; discriminate H.
  - split; [intros (b & c & H); discriminate H|]; split; [intros _ H1; lia | reflexivity].
  - pose proof (drawToCache_st_frame B (with_cacheMap a m') g i) as F; cbv zeta in F.
    destruct F as (_ & _ & _ & _ & _ & _ & _ & _ & _ & _ & _ & _ & _ & Hte).
    split; [intros (b & c & H); discriminate H|]; split.
    + intros _ _; exact (proj2 (Hte Ht)).
    + intros _ H0; exfalso; pose proof (winv_size _ W) as Hs.
      destruct Hcase as [(Hlt & _) | (Hge & e & Hm & _)].
      * unfold map_size in Hlt; lia.
      * rewrite Hm in Hs; unfold map_size in Hs; simpl in Hs; lia.
  - pose proof (drawToCache_st_frame B (with_cacheMap a m') g i) as F; cbv zeta in F.
    destruct F as (_ & _ & _ & _ & _ & _ & _ & _ & _ & _ & _ & _ & Hok & _).
    split; [intros _; exact (Hok Ht)|]; split; intros H; discriminate H.
Qed.

(** X6: in a reachable state, drawing a glyph again right after a draw of
    it that returned true is a hit that leaves the atlas exactly as it was,
    and copies the glyph's cell to the new destination. *)
Theorem draw_same_glyph_twice (B : Browser) a ctx g x y a1 c1 ctx2 x2 y2 : reachable B a ->
  draw B a ctx g x y = Ok (true, a1, c1) ->
  exists i, map_get (getGlyphCacheKey g) (_cacheMap a1) = Some i /\
            draw B a1 ctx2 g x2 y2 = Ok (true, a1, _drawFromCache B a1 ctx2 i x2 y2).
Proof.
  intros R H; pose proof (reachable_winv B a R) as W.
  destruct (draw_key_last B _ _ _ _ _ _ _ (winv_keys _ W) H) as (L & i & Hm & Hn).
  exists i; split; [rewrite Hm; apply map_get_last, Hn|].
  rewrite draw_eq; cbv zeta; rewrite Hm, map_get_last by exact Hn.
  rewrite map_delete_last, map_set_new by exact Hn.
  rewrite <- Hm, with_cacheMap_same; reflexivity.
Qed.

(** X7: a slot is recovered from the coordinates [_toCoordinates] gives it:
    they are multiples of the cell size, and column + row * gridWidth is the
    slot, for every slot index >= 0 of an atlas whose cells are no wider
    than the texture. *)
Theorem toCoordinates_round_trip cfg i :
  0 < scaledCharWidth cfg -> 0 < scaledCharHeight cfg ->
  scaledCharWidth cfg <= TEXTURE_WIDTH -> 0 <= i ->
  let a := construct cfg in
  let cx := fst (_toCoordinates a i) in
  let cy := snd (_toCoordinates a i) in
  Z.rem cx (scaledCharWidth cfg) = 0 /\ Z.rem cy (scaledCharHeight cfg) = 0 /\
  cx / scaledCharWidth cfg + cy / scaledCharHeight cfg * _width a = i.
Proof.
  intros Hw Hh Hle Hi; cbv zeta; unfold _toCoordinates; cbn [construct _width _config fst snd].
  assert (Hw1 : 1 <= TEXTURE_WIDTH / scaledCharWidth cfg)
    by (apply grid_pos_iff; unfold TEXTURE_WIDTH in *; lia).
  set (w := TEXTURE_WIDTH / scaledCharWidth cfg) in *.
  rewrite !Z.rem_mul by lia; split; [reflexivity|]; split; [reflexivity|].
  rewrite !Z.div_mul by lia; rewrite Z.rem_mod_nonneg by lia.
  pose proof (Z.div_mod i w ltac:(lia)); lia.
Qed.

(** X9: if the browser's [fillRect] covers the cell and its [fillText]
    composites pixel by pixel, then in every state reached by draw calls
    none of which threw, each entry of the map is the key of a cacheable
    glyph with valid colour ids, and the cell of its slot holds exactly that
    glyph's image. *)
Theorem cached_cells_hold_their_glyph (B : Browser) a :
  rect_covers B -> text_pointwise B -> reachable_no_throw B a ->
  forall k i, map_get k (_cacheMap a) = Some i ->
  exists g, k = getGlyphCacheKey g /\ drawable g /\ cell_view a i = glyph_image B (_config a) g.
Proof. intros Hr Ht R; exact (reachable_cache_ok B a Hr Ht R). Qed.

(** X10: under the same two properties of the browser, every draw that
    returns true, hit or miss, in a state reached by draw calls none of
    which threw, paints the glyph's own image at (x, y) of the
    destination. *)
Theorem draw_paints_glyph_image (B : Browser) a ctx g x y a' out :
  rect_covers B -> text_pointwise B -> reachable_no_throw B a ->
  draw B a ctx g x y = Ok (true, a', out) ->
  out = set_pixels ctx (paint_image B (cv_state ctx) (glyph_image B (_config a) g) x y
                          (scaledCharWidth (_config a)) (scaledCharHeight (_config a))
                          (cv_pixels ctx)).
Proof.
  intros Hr Ht R H.
  destruct (draw_true_slot B _ _ _ _ _ _ _ H) as (i & Hi & ->).
  pose proof (reachable_cache_ok B a' Hr Ht (reachable_no_throw_draw B _ _ _ _ _ _ _ _ R H)) as C.
  destruct (C _ _ Hi) as (g' & Hk & _ & Hv).
  apply glyph_of_key in Hk; subst g'.
  destruct (draw_frame B _ _ _ _ _ _ _ _ H) as (Hc & _).
  rewrite drawFromCache_view, Hv, Hc; reflexivity.
Qed.

(** X11: what a draw call that throws leaves behind.  The key was not in
    the map and [_canCache] accepted the glyph; the configuration, the
    capacity and the atlas canvas are unchanged and the key is still
    absent.  With the map not full the map is unchanged; with the map full,
    either it was empty (capacity 0) and stays so, or [mapShift] has already
    removed its first entry. *)
Theorem thrown_call_effects (B : Browser) a ctx g x y :
  fst (draw_st B a ctx g x y) = TypeError ->
  let a' := snd (draw_st B a ctx g x y) in
  _config a' = _config a /\ _capacity a' = _capacity a /\ _cacheCanvas a' = _cacheCanvas a /\
  _canCache g = true /\
  map_get (getGlyphCacheKey g) (_cacheMap a) = None /\
  map_get (getGlyphCacheKey g) (_cacheMap a') = None /\
  (map_size (_cacheMap a) < _capacity a -> _cacheMap a' = _cacheMap a) /\
  (_capacity a <= map_size (_cacheMap a) ->
     (_cacheMap a = [] /\ _cacheMap a' = []) \/ exists e, _cacheMap a = e :: _cacheMap a').
Proof.
  intros H; cbv zeta.
  destruct (draw_st_cases B a ctx g x y)
    as [(i & _ & E) | [(_ & _ & E) | [(Hget & Hc & Hm & Hcap & E) |
        (Hget & Hc & i & m' & Hcase & [(Ht & E) | (Ht & E)])]]];
    rewrite E in H |- *; cbn [fst snd] in H |- *; try discriminate H.
  - do 3 (split; [reflexivity|]); split; [exact Hc|]; split; [exact Hget|].
    split; [exact Hget|]; split; [intros; reflexivity|]; intros _; left; auto.
  - pose proof (drawToCache_st_frame B (with_cacheMap a m') g i) as F; cbv zeta in F.
    destruct F as (Hcfg & Hmap & Hcap & _ & _ & _ & _ & _ & _ & _ & _ & _ & _ & Hte).
    rewrite Hcfg, Hmap, Hcap, (proj1 (Hte Ht)); cbn [with_cacheMap _config _cacheMap _capacity
                                                     _cacheCanvas].
    do 3 (split; [reflexivity|]); split; [exact Hc|]; split; [exact Hget|].
    destruct Hcase as [(Hlt & _ & ->) | (Hge & e & Hm & _)].
    + split; [exact Hget|]; split; [intros; reflexivity|]; intros; lia.
    + split.
      * rewrite Hm in Hget; destruct e as [ek ev]; simpl in Hget.
        destruct (jsstring_eqb (getGlyphCacheKey g) ek); [discriminate Hget | exact Hget].
      * split; [intros; lia|]; intros _; right; exists e; exact Hm.
Qed.

(** X12: in a state reached by draw calls none of which threw, [save] and
    [restore] in [_drawToCache] have balanced out: the scratch context is
    back in its default state with an empty save stack (no fill colour,
    bold font or [DIM_OPACITY] carries over to the next glyph), the atlas
    context is the default one, and both canvases keep their sizes: the cell
    size and 1024 x 1024. *)
Theorem scratch_context_restored_no_throw (B : Browser) a : reachable_no_throw B a ->
  cv_state (_tmpCanvas a) = default_ctx_state /\ cv_stack (_tmpCanvas a) = [] /\
  cv_state (_cacheCanvas a) = default_ctx_state /\ cv_stack (_cacheCanvas a) = [] /\
  cv_width (_tmpCanvas a) = scaledCharWidth (_config a) /\
  cv_height (_tmpCanvas a) = scaledCharHeight (_config a) /\
  cv_width (_cacheCanvas a) = TEXTURE_WIDTH /\ cv_height (_cacheCanvas a) = TEXTURE_HEIGHT.
Proof.
  intros R; pose proof (reachable_no_throw_inv B a R) as I.
  pose proof (reachable_winv B a (reachable_no_throw_reachable B a R)) as W.
  destruct (inv_tmp_dims _ I) as [Htw Hth]; destruct (inv_cache_dims _ I) as [Hcw Hch].
  split; [exact (inv_tmp_state _ I)|]; split; [exact (inv_tmp_stack _ I)|].
  split; [exact (winv_cache_state _ W)|]; split; [exact (winv_cache_stack _ W)|].
  auto.
Qed.

(** ** Witnesses of the further properties *)

(** X1 at the full 4-slot atlas, with a glyph whose background id is -5. *)
Lemma X1_witness :
  reachable B0 full4 /\
  (draw B0 full4 canvas0 (bad_bg_glyph "E") 0 0 = TypeError <->
   map_get (getGlyphCacheKey (bad_bg_glyph "E")) (_cacheMap full4) = None /\
   _canCache (bad_bg_glyph "E") = true /\
   (_capacity full4 = 0 \/ ~ valid_color_ref (bg (bad_bg_glyph "E")) \/
    ~ valid_color_ref (fg (bad_bg_glyph "E")))).
Proof.
  split; [exact full4_reachable|].
  exact (draw_throws_iff B0 full4 canvas0 (bad_bg_glyph "E") 0 0 full4_reachable).
Defined.

(** X2 with 512 x 512 cells and "A". *)
Lemma X2_witness :
  valid_config (cfg_cells 512 512) /\ drawable (glyph_of "A"%string) /\
  ((exists a' ctx', draw B0 (construct (cfg_cells 512 512)) canvas0 (glyph_of "A"%string) 0 0 =
                    Ok (true, a', ctx')) <->
   scaledCharWidth (cfg_cells 512 512) <= TEXTURE_WIDTH /\
   scaledCharHeight (cfg_cells 512 512) <= TEXTURE_HEIGHT).
Proof.
  assert (Hv : valid_config (cfg_cells 512 512)) by (apply valid_cfg_cells; lia).
  assert (Hg : drawable (glyph_of "A"%string)) by drawable_tac.
  split; [exact Hv|]; split; [exact Hg|].
  exact (first_draw_succeeds_iff B0 (cfg_cells 512 512) canvas0 _ 0 0 Hv Hg).
Defined.

(** X3 at the full 4-slot atlas. *)
Lemma X3_witness :
  reachable_no_throw B0 full4 /\
  forall v, In v (map snd (_cacheMap full4)) <-> 0 <= v < map_size (_cacheMap full4).
Proof.
  split; [exact full4_reachable_no_throw|].
  exact (occupied_slots_are_prefix B0 full4 full4_reachable_no_throw).
Defined.

(** X4 at the full 4-slot atlas, with a glyph whose background id is -5. *)
Lemma X4_witness :
  reachable B0 full4 /\
  let r := draw_st B0 full4 canvas0 (bad_bg_glyph "E") 0 0 in
  let a' := snd r in
  globalAlpha (cv_state (_tmpCanvas a')) = 1%Q /\
  cv_state (_cacheCanvas a') = default_ctx_state /\ cv_stack (_cacheCanvas a') = [] /\
  (cv_width (_tmpCanvas a') = scaledCharWidth (_config a') /\
   cv_height (_tmpCanvas a') = scaledCharHeight (_config a')) /\
  (cv_width (_cacheCanvas a') = TEXTURE_WIDTH /\ cv_height (_cacheCanvas a') = TEXTURE_HEIGHT) /\
  ((exists b c, fst r = Ok (b, c)) ->
     cv_state (_tmpCanvas a') = cv_state (_tmpCanvas full4) /\
     cv_stack (_tmpCanvas a') = cv_stack (_tmpCanvas full4)) /\
  (fst r = TypeError -> 1 <= _capacity full4 ->
     cv_stack (_tmpCanvas a') = cv_state (_tmpCanvas full4) :: cv_stack (_tmpCanvas full4)) /\
  (fst r = TypeError -> _capacity full4 = 0 -> a' = full4).
Proof.
  split; [exact full4_reachable|].
  exact (scratch_context_after_call B0 full4 canvas0 (bad_bg_glyph "E") 0 0 full4_reachable).
Defined.

(** X6 at the full 4-slot atlas: "A" drawn twice. *)
Lemma X6_witness :
  reachable B0 full4 /\
  exists a1 c1,
    draw B0 full4 canvas0 (glyph_of "A"%string) 0 0 = Ok (true, a1, c1) /\
    exists i, map_get (getGlyphCacheKey (glyph_of "A"%string)) (_cacheMap a1) = Some i /\
      draw B0 a1 canvas0 (glyph_of "A"%string) 10 20 =
        Ok (true, a1, _drawFromCache B0 a1 canvas0 i 10 20).
Proof.
  assert (HA : map_get (getGlyphCacheKey (glyph_of "A"%string)) (_cacheMap full4) = Some 0)
    by (vm_compute; reflexivity).
  split; [exact full4_reachable|].
  exists (with_cacheMap full4 (map_set (getGlyphCacheKey (glyph_of "A"%string)) 0
            (map_delete (getGlyphCacheKey (glyph_of "A"%string)) (_cacheMap full4)))).
  eexists.
  assert (Hd : draw B0 full4 canvas0 (glyph_of "A"%string) 0 0 =
    Ok (true, with_cacheMap full4 (map_set (getGlyphCacheKey (glyph_of "A"%string)) 0
               (map_delete (getGlyphCacheKey (glyph_of "A"%string)) (_cacheMap full4))),
        _drawFromCache B0 (with_cacheMap full4 (map_set (getGlyphCacheKey (glyph_of "A"%string)) 0
               (map_delete (getGlyphCacheKey (glyph_of "A"%string)) (_cacheMap full4)))) canvas0 0 0 0))
    by (rewrite draw_eq; cbv zeta; rewrite HA; reflexivity).
  split; [exact Hd|].
  exact (draw_same_glyph_twice B0 full4 canvas0 (glyph_of "A"%string) 0 0 _ _ canvas0 10 20
           full4_reachable Hd).
Defined.

(** X7 with 16 x 16 cells, slot 100. *)
Lemma X7_witness :
  0 < scaledCharWidth (cfg_cells 16 16) /\ 0 < scaledCharHeight (cfg_cells 16 16) /\
  scaledCharWidth (cfg_cells 16 16) <= TEXTURE_WIDTH /\ 0 <= 100 /\
  Z.rem (fst (_toCoordinates (construct (cfg_cells 16 16)) 100)) 16 = 0 /\
  Z.rem (snd (_toCoordinates (construct (cfg_cells 16 16)) 100)) 16 = 0 /\
  fst (_toCoordinates (construct (cfg_cells 16 16)) 100) / 16 +
  snd (_toCoordinates (construct (cfg_cells 16 16)) 100) / 16 * _width (construct (cfg_cells 16 16))
  = 100.
Proof.
  assert (Hw : 0 < scaledCharWidth (cfg_cells 16 16)) by (vm_compute; reflexivity).
  assert (Hh : 0 < scaledCharHeight (cfg_cells 16 16)) by (vm_compute; reflexivity).
  assert (Hle : scaledCharWidth (cfg_cells 16 16) <= TEXTURE_WIDTH)
    by (vm_compute; intros H; discriminate H).
  assert (Hi : 0 <= 100) by lia.
  split; [exact Hw|]; split; [exact Hh|]; split; [exact Hle|]; split; [exact Hi|].
  exact (toCoordinates_round_trip (cfg_cells 16 16) 100 Hw Hh Hle Hi).
Defined.

(** X9 at the full 4-slot atlas with the flat-colour browser. *)
Lemma X9_witness :
  rect_covers B0 /\ text_pointwise B0 /\ reachable_no_throw B0 full4 /\
  forall k i, map_get k (_cacheMap full4) = Some i ->
  exists g, k = getGlyphCacheKey g /\ drawable g /\ cell_view full4 i = glyph_image B0 (_config full4) g.
Proof.
  assert (Hr : rect_covers B0) by (intros st w h s s' u v H; simpl; rewrite H; reflexivity).
  assert (Ht : text_pointwise B0) by (intros st t x y s s' u v H; simpl; rewrite H; reflexivity).
  split; [exact Hr|]; split; [exact Ht|]; split; [exact full4_reachable_no_throw|].
  exact (cached_cells_hold_their_glyph B0 full4 Hr Ht full4_reachable_no_throw).
Defined.

(** X10 at the full 4-slot atlas: a hit on "A". *)
Lemma X10_witness :
  rect_covers B0 /\ text_pointwise B0 /\ reachable_no_throw B0 full4 /\
  exists a' out,
    draw B0 full4 canvas0 (glyph_of "A"%string) 0 0 = Ok (true, a', out) /\
    out = set_pixels canvas0 (paint_image B0 (cv_state canvas0)
                                (glyph_image B0 (_config full4) (glyph_of "A"%string)) 0 0
                                (scaledCharWidth (_config full4)) (scaledCharHeight (_config full4))
                                (cv_pixels canvas0)).
Proof.
  assert (Hr : rect_covers B0) by (intros st w h s s' u v H; simpl; rewrite H; reflexivity).
  assert (Ht : text_pointwise B0) by (intros st t x y s s' u v H; simpl; rewrite H; reflexivity).
  assert (HA : map_get (getGlyphCacheKey (glyph_of "A"%string)) (_cacheMap full4) = Some 0)
    by (vm_compute; reflexivity).
  split; [exact Hr|]; split; [exact Ht|]; split; [exact full4_reachable_no_throw|].
  exists (with_cacheMap full4 (map_set (getGlyphCacheKey (glyph_of "A"%string)) 0
            (map_delete (getGlyphCacheKey (glyph_of "A"%string)) (_cacheMap full4)))).
  eexists.
  assert (Hd : draw B0 full4 canvas0 (glyph_of "A"%string) 0 0 =
    Ok (true, with_cacheMap full4 (map_set (getGlyphCacheKey (glyph_of "A"%string)) 0
               (map_delete (getGlyphCacheKey (glyph_of "A"%string)) (_cacheMap full4))),
        _drawFromCache B0 (with_cacheMap full4 (map_set (getGlyphCacheKey (glyph_of "A"%string)) 0
               (map_delete (getGlyphCacheKey (glyph_of "A"%string)) (_cacheMap full4)))) canvas0 0 0 0))
    by (rewrite draw_eq; cbv zeta; rewrite HA; reflexivity).
  split; [exact Hd|].
  exact (draw_paints_glyph_image B0 full4 canvas0 (glyph_of "A"%string) 0 0 _ _ Hr Ht
           full4_reachable_no_throw Hd).
Defined.

(** X11 at the full 4-slot atlas, with a glyph whose background id is -5. *)
Lemma X11_witness :
  fst (draw_st B0 full4 canvas0 (bad_bg_glyph "E") 0 0) = TypeError /\
  let a' := snd (draw_st B0 full4 canvas0 (bad_bg_glyph "E") 0 0) in
  _config a' = _config full4 /\ _capacity a' = _capacity full4 /\
  _cacheCanvas a' = _cacheCanvas full4 /\
  _canCache (bad_bg_glyph "E") = true /\
  map_get (getGlyphCacheKey (bad_bg_glyph "E")) (_cacheMap full4) = None /\
  map_get (getGlyphCacheKey (bad_bg_glyph "E")) (_cacheMap a') = None /\
  (map_size (_cacheMap full4) < _capacity full4 -> _cacheMap a' = _cacheMap full4) /\
  (_capacity full4 <= map_size (_cacheMap full4) ->
     (_cacheMap full4 = [] /\ _cacheMap a' = []) \/ exists e, _cacheMap full4 = e :: _cacheMap a').
Proof.
  assert (H : fst (draw_st B0 full4 canvas0 (bad_bg_glyph "E") 0 0) = TypeError)
    by (vm_compute; reflexivity).
  split; [exact H|].
  exact (thrown_call_effects B0 full4 canvas0 (bad_bg_glyph "E") 0 0 H).
Defined.

(** X12 at the full 4-slot atlas. *)
Lemma X12_witness :
  reachable_no_throw B0 full4 /\
  cv_state (_tmpCanvas full4) = default_ctx_state /\ cv_stack (_tmpCanvas full4) = [] /\
  cv_state (_cacheCanvas full4) = default_ctx_state /\ cv_stack (_cacheCanvas full4) = [] /\
  cv_width (_tmpCanvas full4) = scaledCharWidth (_config full4) /\
  cv_height (_tmpCanvas full4) = scaledCharHeight (_config full4) /\
  cv_width (_cacheCanvas full4) = TEXTURE_WIDTH /\ cv_height (_cacheCanvas full4) = TEXTURE_HEIGHT.
Proof.
  split; [exact full4_reachable_no_throw|].
  exact (scratch_context_restored_no_throw B0 full4 full4_reachable_no_throw).
Defined.
